(** * gmail-label-counts.js: a shallow embedding and its checked properties

    The script scans the threads of a Gmail inbox, counts how often each
    label occurs and keeps per-thread label data in flat JSON files under
    a cache directory.  This development embeds the functions of
    [gmail-label-counts.js] that touch the cache, the remote API and the
    report, and states the properties of the specification against them.

    Modelling decisions, all visible in the definitions below:
    - the file system is a finite map from path to file; a file is what
      [JSON.parse] makes of its text (a value, or a syntax error);
    - the Gmail client handle [gmail] is a record of response functions,
      indexed by the number of calls of that method made so far, so that
      a remote that answers differently over time can be described;
    - console output, remote calls and awaited timer delays are appended
      to an event trace kept in the world;
    - exceptions are an outcome of the monad; the two [do ... while]
      pagination loops take fuel;
    - the bounded-parallel fetch pool ([pLimit(3)] under [Promise.all])
      is run in the sequential schedule that starts and completes the
      tasks in the order of [toFetch]; of a run that fails in the pool
      the statements say only what holds in every schedule;
    - arrays hold strings (thread and label identifiers, the only arrays
      the script builds), numbers are integers, and a string is the
      UTF-8 text of the JavaScript string;
    - the two objects the script uses as maps, [labelIdToName] and
      [labelCounts], are modelled by their own properties; a key that
      names a property of [Object.prototype] ([inherited_key]) reads an
      inherited value there, so the statements that depend on such a
      read carry the hypothesis that the keys are not inherited ones;
    - a cache file is created only under a name the directory accepts
      ([file_name_error]); the cache directory has no subdirectories and
      its files can be read and written; a path is taken as it is
      written, the rewriting of [.], [..] and doubled slashes by
      [path.join] is not modelled, and a statement about a refused name
      is made for the names [path.join] leaves alone ([normal_path]);
    - [authorize] and the creation of the cache directory when the
      module loads are outside the model: a run starts from an authorized
      handle and an existing directory. *)

From Stdlib Require Import ZArith Ascii String List Lia Sorted.
From stdpp Require Import base gmap strings pretty list.

Local Open Scope string_scope.
Local Open Scope Z_scope.

(** ** JavaScript values *)

#[local] Set Warnings "-register-all".

Inductive jsval : Type :=
| VUndefined
| VNull
| VBool (b : bool)
| VNum (n : Z)
| VStr (s : string)
| VArr (elems : list string)
| VObj (fields : list (string * jsval)).

(** [v.key] on an object literal: own fields only, first binding wins. *)
Fixpoint field (key : string) (fields : list (string * jsval)) : jsval :=
  match fields with
  | [] => VUndefined
  | (k, v) :: rest => if String.eqb k key then v else field key rest
  end.

(** Truthiness as used by [if (x)], [x || y] and [while (x)]. *)
Definition truthy (v : jsval) : bool :=
  match v with
  | VUndefined | VNull => false
  | VBool b => b
  | VNum n => negb (n =? 0)
  | VStr s => negb (String.eqb s "")
  | VArr _ | VObj _ => true
  end.

Definition isArray (v : jsval) : bool :=
  match v with
  | VArr _ => true
  | _ => false
  end.

(** What [JSON.parse (JSON.stringify v)] gives back: fields whose value is
    [undefined] are dropped, everything else the model holds survives. *)
Fixpoint jsonify (v : jsval) : jsval :=
  match v with
  | VObj fields =>
      VObj ((fix go (fs : list (string * jsval)) : list (string * jsval) :=
               match fs with
               | [] => []
               | (k, VUndefined) :: rest => go rest
               | (k, x) :: rest => (k, jsonify x) :: go rest
               end) fields)
  | _ => v
  end.

(** ** Exceptions, events and the world *)

Inductive Exn : Type :=
| TypeError
| SyntaxError
| HttpError (status : Z)
| OtherError (msg : string).

(** [err?.response?.status] *)
Definition response_status (e : Exn) : option Z :=
  match e with
  | HttpError s => Some s
  | _ => None
  end.

Inductive Event : Type :=
| EWarn (msg : string)
| ELog (msg : string)
| EOut (msg : string)
| ESleep (ms : Z)
| EGet (id : string)
| EList (q : string) (maxResults : Z) (pageToken : option string)
| ELabels.

Inductive File : Type :=
| Unparsable
| Json (v : jsval).

Record World : Type := mkWorld {
  files : gmap string File;
  events : list Event
}.

Inductive Outcome (A : Type) : Type :=
| Return (a : A)
| Throw (e : Exn)
| OutOfFuel.
Arguments Return {A} a.
Arguments Throw {A} e.
Arguments OutOfFuel {A}.

Definition M (A : Type) : Type := World -> Outcome A * World.

Definition ret {A} (a : A) : M A := fun w => (Return a, w).
Definition throw {A} (e : Exn) : M A := fun w => (Throw e, w).
Definition out_of_fuel {A} : M A := fun w => (OutOfFuel, w).

Definition bind {A B} (m : M A) (k : A -> M B) : M B :=
  fun w =>
    match m w with
    | (Return a, w') => k a w'
    | (Throw e, w') => (Throw e, w')
    | (OutOfFuel, w') => (OutOfFuel, w')
    end.

(** [try { m } catch (e) { h e }] *)
Definition try_catch {A} (m : M A) (h : Exn -> M A) : M A :=
  fun w =>
    match m w with
    | (Throw e, w') => h e w'
    | r => r
    end.

Notation "'let*' x := m 'in' k" := (bind m (fun x => k))
  (at level 10, x name, m at level 100, k at level 200, only parsing).
Notation "m >> k" := (bind m (fun _ => k))
  (at level 100, k at level 200, right associativity, only parsing).

Definition emit (e : Event) : M unit :=
  fun w => (Return tt, mkWorld (files w) (events w ++ [e])).

Definition warn (msg : string) : M unit := emit (EWarn msg).
Definition log (msg : string) : M unit := emit (ELog msg).
Definition stdout_write (msg : string) : M unit := emit (EOut msg).
Definition sleep (ms : Z) : M unit := emit (ESleep ms).

Definition existsSync (path : string) : M bool :=
  fun w => (Return (bool_decide (is_Some (files w !! path))), w).

(** [JSON.parse(fs.readFileSync(path, 'utf8'))] on a file that exists. *)
Definition readJson (path : string) : M jsval :=
  fun w =>
    match files w !! path with
    | Some (Json v) => (Return v, w)
    | Some Unparsable => (Throw SyntaxError, w)
    | None => (Throw (OtherError "ENOENT"), w)
    end.

Definition unlinkSync (path : string) : M unit :=
  fun w =>
    match files w !! path with
    | Some _ => (Return tt, mkWorld (delete path (files w)) (events w))
    | None => (Throw (OtherError "ENOENT"), w)
    end.

(** The projections of the trace the properties speak about. *)
Definition fetch_calls (evs : list Event) : list string :=
  flat_map (fun e => match e with EGet id => [id] | _ => [] end) evs.

Definition list_calls (evs : list Event) : list (string * Z * option string) :=
  flat_map (fun e => match e with EList q n t => [(q, n, t)] | _ => [] end) evs.

Definition labels_calls (evs : list Event) : list unit :=
  flat_map (fun e => match e with ELabels => [tt] | _ => [] end) evs.

Definition warnings (evs : list Event) : list string :=
  flat_map (fun e => match e with EWarn m => [m] | _ => [] end) evs.

Definition sleeps (evs : list Event) : list Z :=
  flat_map (fun e => match e with ESleep d => [d] | _ => [] end) evs.

Definition logged (evs : list Event) : list string :=
  flat_map (fun e => match e with ELog m => [m] | _ => [] end) evs.


(** ** The platform and the remote API handle *)

(** What the script takes from its surroundings: the cache directory
    ([path.join(__dirname, '.cache')]), the clock behind
    [new Date().toISOString()], read at a given length of the trace, and
    [String.prototype.localeCompare]. *)
Class Platform : Type := {
  CACHE_DIR : string;
  toISOString : nat -> string;
  localeCompare : string -> string -> Z
}.

Record Message : Type := { msg_labelIds : option (list string) }.

Inductive GetResponse : Type :=
| GetOk (messages : option (list Message))
| GetFail (err : Exn).

Record Thread : Type := mkThread { thread_id : string }.

Record Page : Type := {
  page_threads : option (list Thread);
  nextPageToken : option string
}.

Inductive ListResponse : Type :=
| ListOk (page : Page)
| ListFail (err : Exn).

Record Label : Type := { label_id : option string; label_name : option string }.

Inductive LabelsResponse : Type :=
| LabelsOk (labels : option (list Label))
| LabelsFail (err : Exn).

(** The handle [gmail]; the first argument of each method is the number
    of calls of that method made before this one. *)
Record Gmail : Type := {
  threads_get : nat -> string -> GetResponse;
  threads_list : nat -> string -> option string -> ListResponse;
  labels_list : nat -> LabelsResponse
}.

(** [await gmail.users.threads.get({ userId: 'me', id, format: 'minimal' })] *)
Definition users_threads_get (gmail : Gmail) (id : string) : M (option (list Message)) :=
  fun w =>
    let w' := mkWorld (files w) (events w ++ [EGet id]) in
    match threads_get gmail (length (fetch_calls (events w))) id with
    | GetOk messages => (Return messages, w')
    | GetFail err => (Throw err, w')
    end.

(** [await gmail.users.threads.list({ userId: 'me', q, maxResults, pageToken })] *)
Definition users_threads_list (gmail : Gmail) (q : string) (maxResults : Z)
    (pageToken : option string) : M Page :=
  fun w =>
    let w' := mkWorld (files w) (events w ++ [EList q maxResults pageToken]) in
    match threads_list gmail (length (list_calls (events w))) q pageToken with
    | ListOk page => (Return page, w')
    | ListFail err => (Throw err, w')
    end.

(** [await gmail.users.labels.list({ userId: 'me' })] *)
Definition users_labels_list (gmail : Gmail) : M (option (list Label)) :=
  fun w =>
    let w' := mkWorld (files w) (events w ++ [ELabels]) in
    match labels_list gmail (length (labels_calls (events w))) with
    | LabelsOk labels => (Return labels, w')
    | LabelsFail err => (Throw err, w')
    end.

(** ** Property access and string helpers *)

(** [v.key] for a key no primitive or array carries: a [TypeError] on
    [null] and [undefined], [undefined] on other non-objects. *)
Definition get_prop (v : jsval) (key : string) : M jsval :=
  match v with
  | VUndefined | VNull => throw TypeError
  | VObj fields => ret (field key fields)
  | _ => ret VUndefined
  end.

(** [v?.key] *)
Definition opt_prop (v : jsval) (key : string) : jsval :=
  match v with
  | VObj fields => field key fields
  | _ => VUndefined
  end.

(** The UTF-16 code units of one character, counted at the bytes of its
    UTF-8 form: one at an ASCII byte and at the lead byte of a two- or
    three-byte sequence, two at the lead byte of a four-byte sequence (a
    surrogate pair), none at a continuation byte. *)
Definition utf16_units (byte : nat) : nat :=
  if (byte <? 128)%nat then 1%nat
  else if (byte <? 192)%nat then 0%nat
  else if (byte <? 240)%nat then 1%nat
  else 2%nat.

(** [s.length] of a string. *)
Fixpoint utf16_length (s : string) : nat :=
  match s with
  | EmptyString => 0%nat
  | String c rest => (utf16_units (Ascii.nat_of_ascii c) + utf16_length rest)%nat
  end.

(** [v.length] on a value that is neither [null] nor [undefined]. *)
Definition js_length (v : jsval) : jsval :=
  match v with
  | VArr elems => VNum (Z.of_nat (length elems))
  | VStr s => VNum (Z.of_nat (utf16_length s))
  | VObj fields => field "length" fields
  | _ => VUndefined
  end.

(** The string a template literal puts in for [${v}]. *)
Definition display (v : jsval) : string :=
  match v with
  | VUndefined => "undefined"
  | VNull => "null"
  | VBool true => "true"
  | VBool false => "false"
  | VNum n => pretty n
  | VStr s => s
  | VArr elems => String.concat "," elems
  | VObj _ => "[object Object]"
  end.

Fixpoint repeat_string (s : string) (n : nat) : string :=
  match n with
  | O => ""
  | S n' => s ++ repeat_string s n'
  end.

(** [s.padEnd(n)] *)
Definition padEnd (n : nat) (s : string) : string :=
  s ++ repeat_string " " (n - utf16_length s).

(** ** File names *)

(** The longest name a directory entry may have, in bytes. *)
Definition NAME_MAX : nat := 255.

Fixpoint contains_char (c : Ascii.ascii) (s : string) : bool :=
  match s with
  | EmptyString => false
  | String c' rest => Ascii.eqb c c' || contains_char c rest
  end.

(** The part of a relative path before its first slash. *)
Fixpoint first_component (s : string) : string :=
  match s with
  | EmptyString => EmptyString
  | String c rest =>
      if Ascii.eqb c "/"%char then EmptyString else String c (first_component rest)
  end.

(** What creating the file [name] in a directory without subdirectories
    fails with: [fs] refuses a path with a null byte, a component longer
    than [NAME_MAX] is too long, and a slash sends the write into a
    directory that is not there. *)
Definition file_name_error (name : string) : option Exn :=
  if contains_char (Ascii.ascii_of_nat 0) name then Some TypeError
  else if (NAME_MAX <? String.length (first_component name))%nat
       then Some (OtherError "ENAMETOOLONG")
  else if contains_char "/"%char name then Some (OtherError "ENOENT")
  else None.

(** The segments of a relative path, the parts between its slashes. *)
Fixpoint path_segments (s : string) : list string :=
  match s with
  | EmptyString => [EmptyString]
  | String c rest =>
      if Ascii.eqb c "/"%char then EmptyString :: path_segments rest
      else match path_segments rest with
           | segment :: segments => String c segment :: segments
           | [] => [String c EmptyString]
           end
  end.

(** A path [path.join] leaves as it is: no segment is empty, [.] or
    [..]. *)
Definition normal_path (name : string) : bool :=
  forallb
    (fun segment =>
       negb (String.eqb segment "" || String.eqb segment "." || String.eqb segment ".."))
    (path_segments name).

Fixpoint strip_prefix (prefix s : string) : option string :=
  match prefix, s with
  | EmptyString, _ => Some s
  | String a prefix', String b s' =>
      if Ascii.eqb a b then strip_prefix prefix' s' else None
  | String _ _, EmptyString => None
  end.

(** ** Plain objects as maps *)

(** The names of the properties every plain object inherits from
    [Object.prototype]. *)
Definition inherited_key (key : string) : bool :=
  existsb (String.eqb key)
    ["constructor"; "__defineGetter__"; "__defineSetter__"; "hasOwnProperty";
     "__lookupGetter__"; "__lookupSetter__"; "isPrototypeOf";
     "propertyIsEnumerable"; "toString"; "valueOf"; "__proto__"; "toLocaleString"].

(** [obj[key] = value] with a string for value: the inherited setter of
    [__proto__] takes the assignment and ignores a string, every other
    key becomes an own property. *)
Definition set_property (obj : gmap string string) (key value : string)
    : gmap string string :=
  if String.eqb key "__proto__" then obj else <[key := value]> obj.

Definition CR : string := String (Ascii.ascii_of_nat 13) "".

(** A token or name that [if (x)] and [x && y] accept. *)
Definition truthy_string (o : option string) : bool :=
  match o with
  | Some s => negb (String.eqb s "")
  | None => false
  end.

Definition LF : string := String (Ascii.ascii_of_nat 10) "".

(** A loop whose body runs in the monad, over the elements in order. *)
Fixpoint foldM {A B} (f : B -> A -> M B) (l : list A) (b : B) : M B :=
  match l with
  | [] => ret b
  | x :: rest => let* b' := f b x in foldM f rest b'
  end.

Section Program.
Context {P : Platform}.

(** [fs.writeFileSync(path, JSON.stringify(data, null, 2))] for a path
    in the cache directory: a file that exists is replaced, a new one is
    created when the directory accepts its name. *)
Definition writeJson (path : string) (data : jsval) : M unit :=
  fun w =>
    match files w !! path, strip_prefix (CACHE_DIR ++ "/") path ≫= file_name_error with
    | None, Some e => (Throw e, w)
    | _, _ =>
        (Return tt, mkWorld (<[path := Json (jsonify data)]> (files w)) (events w))
    end.

(** ** The two caches *)

Definition inbox_ids_path : string := CACHE_DIR ++ "/inbox-thread-ids.json".

Definition thread_path (threadId : string) : string :=
  CACHE_DIR ++ "/thread-" ++ threadId ++ ".json".

(** The name of that file in the cache directory. *)
Definition thread_file (threadId : string) : string :=
  "thread-" ++ threadId ++ ".json".

Definition getCachedInboxThreadIds : M jsval :=
  let path := inbox_ids_path in
  let* present := existsSync path in
  if (present : bool) then
    try_catch (readJson path)
      (fun e =>
         warn "Warning: failed to load inbox thread ID cache. Refetching..." >>
         ret VNull)
  else ret VNull.

Definition saveCachedInboxThreadIds (ids : list string) : M unit :=
  let path := inbox_ids_path in
  writeJson path (VArr ids).

Definition getCachedThread (threadId : string) : M jsval :=
  let path := thread_path threadId in
  let* present := existsSync path in
  if (present : bool) then readJson path else ret VNull.

Definition saveCachedThread (threadId : string) (data : jsval) : M unit :=
  let* labelIds := get_prop data "labelIds" in
  if negb (isArray labelIds) then
    warn ("Skipping cache save for " ++ threadId ++ " â€” no valid labels.")
  else
    let path := thread_path threadId in
    writeJson path data.

(** The test version, the one the script runs. *)
Definition isStableThread (labelIds : list string) : bool :=
  (0 <? length labelIds)%nat.

(** ** The fetcher *)

(** [res.data.messages[0].labelIds]: a [TypeError] when there is no
    first message. *)
Definition first_labelIds (messages : option (list Message)) : M (option (list string)) :=
  match messages with
  | Some (m :: _) => ret (msg_labelIds m)
  | _ => throw TypeError
  end.

(** [!Array.isArray(labelIds) || labelIds.length === 0] *)
Definition missing_or_empty (labelIds : option (list string)) : bool :=
  match labelIds with
  | Some (_ :: _) => false
  | _ => true
  end.

Fixpoint safeGetThread (gmail : Gmail) (id : string) (retries : nat)
    : M (option (list Message)) :=
  try_catch
    (let* res := users_threads_get gmail id in
     let* labelIds := first_labelIds res in
     (if missing_or_empty labelIds
      then warn ("Thread " ++ id ++ " returned with missing or empty labels.")
      else ret tt) >>
     ret res)
    (fun err =>
       match retries with
       | S retries' =>
           if bool_decide (response_status err = Some 429) then
             let delay := 1000 * (4 - Z.of_nat retries) in
             warn ("Rate limit hit. Retrying in " ++ pretty delay ++ "ms...") >>
             sleep delay >>
             safeGetThread gmail id retries'
           else throw err
       | O => throw err
       end).

(** ** Label names *)

Record LabelMaps : Type := {
  labelIdToName : gmap string string;
  labelNameToId : gmap string string
}.

Definition add_label (maps : LabelMaps) (label : Label) : LabelMaps :=
  match label_id label, label_name label with
  | Some id, Some name =>
      if negb (String.eqb id "") && negb (String.eqb name "") then
        {| labelIdToName := set_property (labelIdToName maps) id name;
           labelNameToId := set_property (labelNameToId maps) name id |}
      else maps
  | _, _ => maps
  end.

Definition loadLabelMaps (gmail : Gmail) : M LabelMaps :=
  let* res := users_labels_list gmail in
  let labels := default [] res in
  ret (fold_left add_label labels {| labelIdToName := ∅; labelNameToId := ∅ |}).

(** ** The working set *)

(** The [do ... while (nextPageToken)] loop of [getInboxThreads]. *)
Fixpoint list_inbox_pages (fuel : nat) (gmail : Gmail) (threads : list Thread)
    (nextPageToken0 : option string) : M (list Thread) :=
  match fuel with
  | O => out_of_fuel
  | S fuel' =>
      let* res := users_threads_list gmail "label:inbox" 100 nextPageToken0 in
      let threads' := (threads ++ default [] (page_threads res))%list in
      stdout_write (CR ++ "Fetched " ++ pretty (length threads') ++ " inbox thread IDs...") >>
      if truthy_string (nextPageToken res)
      then list_inbox_pages fuel' gmail threads' (nextPageToken res)
      else ret threads'
  end.

Definition getInboxThreads (fuel : nat) (gmail : Gmail) : M (list Thread) :=
  let* threadIds := getCachedInboxThreadIds in
  if truthy threadIds then
    log ("Loaded " ++ display (js_length threadIds) ++ " inbox thread IDs from cache.") >>
    match threadIds with
    | VArr ids => ret (map mkThread ids)
    | _ => throw TypeError
    end
  else
    let* threads := list_inbox_pages fuel gmail [] None in
    log "" >>
    saveCachedInboxThreadIds (map thread_id threads) >>
    ret threads.

(** ** The aggregator *)

(** An element of [labelResults]: phase 1 pushes [{ id, labelIds,
    fromCache: true }], phase 2 pushes [{ id, labelNames, fromCache:
    false }]; a name the map does not bind is [undefined] ([None]). *)
Record LabelResult : Type := {
  lr_id : string;
  lr_labelIds : option (list string);
  lr_labelNames : option (list (option string));
  lr_fromCache : bool
}.

(** The variables phase 1 updates. *)
Record Scan : Type := mkScan {
  labelResults : list LabelResult;
  validCached : nat;
  invalidOrMissing : nat;
  toFetch : list string
}.

(** The progress line phase 1 rewrites after each thread. *)
Definition scan_progress (st : Scan) : string :=
  let scanned := (validCached st + invalidOrMissing st)%nat in
  CR ++ "Scanned " ++ pretty scanned ++ " threads from cache ("
    ++ pretty (validCached st) ++ " valid, "
    ++ pretty (invalidOrMissing st) ++ " invalid)...".

(** The body of the phase 1 callback for one thread. *)
Definition scanThread (inboxThreadIds : gset string) (st : Scan) (thread : Thread) : M Scan :=
  let threadId := thread_id thread in
  let* st' :=
    try_catch
      (let* cache := getCachedThread threadId in
       let labelIds := opt_prop cache "labelIds" in
       match labelIds with
       | VArr labelIds =>
           if negb (bool_decide (threadId ∈ inboxThreadIds)) then
             unlinkSync (thread_path threadId) >>
             ret st
           else if isStableThread labelIds then
             ret (mkScan
                    (labelResults st ++
                       [{| lr_id := threadId; lr_labelIds := Some labelIds;
                           lr_labelNames := None; lr_fromCache := true |}])
                    (S (validCached st)) (invalidOrMissing st) (toFetch st))
           else
             ret (mkScan (labelResults st) (validCached st) (invalidOrMissing st)
                    (toFetch st ++ [threadId]))
       | _ =>
           ret (mkScan (labelResults st) (validCached st) (S (invalidOrMissing st))
                  (toFetch st ++ [threadId]))
       end)
      (fun e =>
         ret (mkScan (labelResults st) (validCached st) (S (invalidOrMissing st))
                (toFetch st ++ [threadId]))) in
  stdout_write (scan_progress st') >>
  ret st'.

(** Phase 1: scan cache. *)
Definition scanCache (inboxThreadIds : gset string) (threads : list Thread) : M Scan :=
  let* st := foldM (scanThread inboxThreadIds) threads (mkScan [] 0 0 []) in
  log "" >>
  ret st.

(** The task phase 2 runs for one thread of [toFetch]; the accumulator is
    [labelResults] with the counter [fetched]. *)
Definition fetchThread (gmail : Gmail) (labelIdToName : gmap string string)
    (total : nat) (acc : list LabelResult * nat) (threadId : string)
    : M (list LabelResult * nat) :=
  let* full := safeGetThread gmail threadId 3 in
  let* labelIds0 := first_labelIds full in
  let labelIds := default [] labelIds0 in
  let* cachedAt := (fun w => (Return (toISOString (length (events w))), w)) in
  saveCachedThread threadId
    (VObj [("labelIds", VArr labelIds); ("cachedAt", VStr cachedAt)]) >>
  let labelNames := map (fun id => labelIdToName !! id) labelIds in
  let fetched := S (snd acc) in
  stdout_write (CR ++ "Fetched " ++ pretty fetched ++ "/" ++ pretty total
                ++ " threads from API...") >>
  ret ((fst acc ++ [{| lr_id := threadId; lr_labelIds := None;
                       lr_labelNames := Some labelNames; lr_fromCache := false |}])%list,
       fetched).

(** Phase 2: fetch missing/unstable threads. *)
Definition fetchMissing (gmail : Gmail) (labelIdToName : gmap string string)
    (st : Scan) : M (list LabelResult) :=
  let* acc := foldM (fetchThread gmail labelIdToName (length (toFetch st)))
                (toFetch st) (labelResults st, O) in
  log "" >>
  ret (fst acc).

(** [labelCounts]: an object used as a map; its entries are kept in
    insertion order, the order [Object.entries] lists them in. *)
Fixpoint bump (label : string) (labelCounts : list (string * nat)) : list (string * nat) :=
  match labelCounts with
  | [] => [(label, 1%nat)]
  | (k, n) :: rest =>
      if String.eqb k label then (k, S n) :: rest else (k, n) :: bump label rest
  end.

(** [t.labelIds || t.labelNames || []] *)
Definition labels_of (t : LabelResult) : list (option string) :=
  match lr_labelIds t with
  | Some labelIds => map Some labelIds
  | None => default [] (lr_labelNames t)
  end.

(** The property key a label turns into. *)
Definition property_key (label : option string) : string :=
  default "undefined" label.

Definition countLabel (labelCounts : list (string * nat)) (label : option string)
    : list (string * nat) :=
  if bool_decide (label = Some "INBOX") then labelCounts
  else bump (property_key label) labelCounts.

Record Counts : Type := mkCounts {
  labelCounts : list (string * nat);
  usedCache : nat;
  usedApi : nat
}.

Definition countThread (inboxThreadIds : gset string) (c : Counts) (t : LabelResult) : Counts :=
  if negb (bool_decide (lr_id t ∈ inboxThreadIds)) then c
  else
    let labels := labels_of t in
    let counts := fold_left countLabel labels (labelCounts c) in
    if lr_fromCache t then mkCounts counts (S (usedCache c)) (usedApi c)
    else mkCounts counts (usedCache c) (S (usedApi c)).

(** Phase 3: count labels. *)
Definition countLabels (inboxThreadIds : gset string) (results : list LabelResult) : Counts :=
  fold_left (countThread inboxThreadIds) results (mkCounts [] 0 0).

(** Phases 1 to 3 of [listInboxLabelCounts], from the working set to
    [labelCounts]. *)
Definition aggregate (gmail : Gmail) (labelIdToName : gmap string string)
    (threads : list Thread) : M Counts :=
  let inboxThreadIds : gset string := list_to_set (map thread_id threads) in
  let* st := scanCache inboxThreadIds threads in
  let* results := fetchMissing gmail labelIdToName st in
  ret (countLabels inboxThreadIds results).

(** ** The report *)

(** The comparator handed to [sort]. *)
Definition compareEntries (labelIdToName : gmap string string)
    (entryA entryB : string * nat) : M Z :=
  let a := fst entryA in
  let b := fst entryB in
  let nameA := default "" (labelIdToName !! a) in
  let nameB := default "" (labelIdToName !! b) in
  (if negb (truthy_string (labelIdToName !! a))
   then warn ("Warning: missing label name for ID '" ++ a ++ "'") else ret tt) >>
  (if negb (truthy_string (labelIdToName !! b))
   then warn ("Warning: missing label name for ID '" ++ b ++ "'") else ret tt) >>
  ret (localeCompare nameA nameB).

(** [Array.prototype.sort] with a comparator that has effects.  Which
    pairs an engine compares is its own business; the model is a stable
    insertion sort, which like every engine never calls the comparator
    on an array of fewer than two elements. *)
Fixpoint insertBy {A} (cmp : A -> A -> M Z) (x : A) (sorted : list A) : M (list A) :=
  match sorted with
  | [] => ret [x]
  | y :: rest =>
      let* order := cmp x y in
      if order <? 0 then ret (x :: y :: rest)
      else let* rest' := insertBy cmp x rest in ret (y :: rest')
  end.

Definition sortBy {A} (cmp : A -> A -> M Z) (l : list A) : M (list A) :=
  match l with
  | [] => ret []
  | x :: rest => foldM (fun sorted y => insertBy cmp y sorted) rest [x]
  end.

(** The callback of [forEach]. *)
Definition printRow (labelIdToName : gmap string string) (entry : string * nat) : M unit :=
  let labelId := fst entry in
  let count := snd entry in
  let name :=
    if truthy_string (labelIdToName !! labelId)
    then default "" (labelIdToName !! labelId)
    else "(missing name: " ++ labelId ++ ")" in
  log (padEnd 30 name ++ pretty count).

(** Final output: the header and one row per entry of [labelCounts]. *)
Definition printReport (labelIdToName : gmap string string)
    (counts : list (string * nat)) : M unit :=
  log (padEnd 30 "Label Name" ++ "Inbox Threads") >>
  log (repeat_string "=" 40) >>
  let* sorted := sortBy (compareEntries labelIdToName) counts in
  foldM (fun _ entry => printRow labelIdToName entry) sorted tt.

(** The [do ... while (nextPageToken)] loop of [countThreadsMatchingQuery]. *)
Fixpoint count_pages (fuel : nat) (gmail : Gmail) (query : string) (count : nat)
    (nextPageToken0 : option string) : M nat :=
  match fuel with
  | O => out_of_fuel
  | S fuel' =>
      let* res := users_threads_list gmail query 100 nextPageToken0 in
      let count' := (count + length (default [] (page_threads res)))%nat in
      if truthy_string (nextPageToken res)
      then count_pages fuel' gmail query count' (nextPageToken res)
      else ret count'
  end.

Definition countThreadsMatchingQuery (fuel : nat) (query : string) (gmail : Gmail) : M nat :=
  count_pages fuel gmail query 0 None.

(** The whole run.  The script's function returns nothing; the model
    hands back the counters it holds when it prints the report. *)
Definition listInboxLabelCounts (fuel : nat) (gmail : Gmail) : M Counts :=
  let* maps := loadLabelMaps gmail in
  let* threads := getInboxThreads fuel gmail in
  let* counts := aggregate gmail (labelIdToName maps) threads in
  log (LF ++ "Used " ++ pretty (usedCache counts) ++ " threads from cache, "
       ++ pretty (usedApi counts) ++ " from API." ++ LF) >>
  printReport (labelIdToName maps) (labelCounts counts) >>
  let* unreadCount := countThreadsMatchingQuery fuel "in:inbox is:unread" gmail in
  log (padEnd 30 "Inbox unread threads:" ++ pretty unreadCount) >>
  let* untaggedCount :=
    countThreadsMatchingQuery fuel "in:inbox -label:=it -label:=p -label:=q" gmail in
  log (padEnd 30 "Inbox untagged threads:" ++ pretty untaggedCount) >>
  ret counts.

End Program.

(** ** Vocabulary of the statements *)

(** [pages] is what the remote serves for [q] from call number [n] on,
    when the first request carries [tok] and each later one the token of
    the page before it; the last page carries no token. *)
Inductive paged (gmail : Gmail) (q : string) : nat -> option string -> list Page -> Prop :=
| paged_last n tok page :
    threads_list gmail n q tok = ListOk page ->
    truthy_string (nextPageToken page) = false ->
    paged gmail q n tok [page]
| paged_more n tok page pages :
    threads_list gmail n q tok = ListOk page ->
    truthy_string (nextPageToken page) = true ->
    paged gmail q (S n) (nextPageToken page) pages ->
    paged gmail q n tok (page :: pages).

(** The requests that enumeration sends. *)
Fixpoint page_requests (q : string) (tok : option string) (pages : list Page)
    : list (string * Z * option string) :=
  match pages with
  | [] => []
  | page :: rest => (q, 100, tok) :: page_requests q (nextPageToken page) rest
  end.

Definition threads_of_pages (pages : list Page) : list Thread :=
  flat_map (fun page => default [] (page_threads page)) pages.

Section Vocabulary.
Context {P : Platform}.

(** The label list the cache holds for a thread, when its file parses to
    a record with an array under [labelIds]. *)
Definition cached_labels (fs : gmap string File) (threadId : string) : option (list string) :=
  match fs !! thread_path threadId with
  | Some (Json v) =>
      match opt_prop v "labelIds" with
      | VArr labelIds => Some labelIds
      | _ => None
      end
  | _ => None
  end.

(** A primed cache: every thread of the working set has a non-empty
    label list on disk. *)
Definition primed (fs : gmap string File) (threads : list Thread) : Prop :=
  forall t, t ∈ threads ->
    exists labelIds, cached_labels fs (thread_id t) = Some labelIds /\ labelIds <> [].

(** What phase 1 pushes for a thread it trusts from the cache. *)
Definition trusted (fs : gmap string File) (t : Thread) : LabelResult :=
  {| lr_id := thread_id t;
     lr_labelIds := Some (default [] (cached_labels fs (thread_id t)));
     lr_labelNames := None;
     lr_fromCache := true |}.

(** The variables of phase 1 after a thread of the working set has been
    looked up in the files [fs]. *)
Definition scanned (fs : gmap string File) (st : Scan) (t : Thread) : Scan :=
  match cached_labels fs (thread_id t) with
  | Some labelIds =>
      if isStableThread labelIds then
        mkScan (labelResults st ++ [trusted fs t])
          (S (validCached st)) (invalidOrMissing st) (toFetch st)
      else
        mkScan (labelResults st) (validCached st) (invalidOrMissing st)
          (toFetch st ++ [thread_id t])
  | None =>
      mkScan (labelResults st) (validCached st) (S (invalidOrMissing st))
        (toFetch st ++ [thread_id t])
  end.

(** A step that only prints: files, remote calls, warnings and delays
    are as before. *)
Definition quiet (w w' : World) : Prop :=
  files w' = files w /\
  fetch_calls (events w') = fetch_calls (events w) /\
  list_calls (events w') = list_calls (events w) /\
  warnings (events w') = warnings (events w) /\
  sleeps (events w') = sleeps (events w).

End Vocabulary.

(** ** Concrete runs

    The inputs at which the properties below are evaluated. *)

Module Scenario.

Definition byte_compare (a b : string) : Z :=
  match String.compare a b with
  | Lt => -1
  | Eq => 0
  | Gt => 1
  end.

Definition platform : Platform :=
  {| CACHE_DIR := ".cache";
     toISOString := fun _ => "2025-06-01T12:00:00.000Z";
     localeCompare := byte_compare |}.

Definition entry (labelIds : list string) : File :=
  Json (VObj [("labelIds", VArr labelIds); ("cachedAt", VStr "2025-05-31T08:00:00.000Z")]).

Definition answer (labelIds : option (list string)) : GetResponse :=
  GetOk (Some [{| msg_labelIds := labelIds |}]).

Definition no_threads : ListResponse :=
  ListOk {| page_threads := None; nextPageToken := None |}.

Definition named (id name : string) : Label :=
  {| label_id := Some id; label_name := Some name |}.

Definition path_t (threadId : string) : string := thread_path (P := platform) threadId.
Definition path_ids : string := inbox_ids_path (P := platform).

(** Working set [t1, t2]; [t1] cached with INBOX and L_A, [t2] not
    cached and answered by the remote with INBOX and L_B; the account
    names L_A "Alpha" and L_B "Beta". *)
Definition gmail_two : Gmail :=
  {| threads_get := fun _ id =>
       if String.eqb id "t2" then answer (Some ["INBOX"; "L_B"])
       else GetFail (HttpError 404);
     threads_list := fun _ _ _ => no_threads;
     labels_list := fun _ =>
       LabelsOk (Some [named "INBOX" "INBOX"; named "L_A" "Alpha"; named "L_B" "Beta"]) |}.

Definition world_two : World :=
  mkWorld (<[path_ids := Json (VArr ["t1"; "t2"])]>
             (<[path_t "t1" := entry ["INBOX"; "L_A"]]> ∅)) [].

(** Working set [t1]; the cache also holds an entry for [t9], a thread
    that has left the inbox. *)
Definition world_stale : World :=
  mkWorld (<[path_ids := Json (VArr ["t1"])]>
             (<[path_t "t1" := entry ["INBOX"; "L_A"]]>
                (<[path_t "t9" := entry ["INBOX"; "L_Z"]]> ∅))) [].

(** A remote that answers the first three [threads.get] calls with 429
    and the fourth with the thread. *)
Definition gmail_429x3 : Gmail :=
  {| threads_get := fun n _ =>
       if (n <? 3)%nat then GetFail (HttpError 429) else answer (Some ["INBOX"; "L_A"]);
     threads_list := fun _ _ _ => no_threads;
     labels_list := fun _ => LabelsOk None |}.

(** A remote that answers every [threads.get] call with 429. *)
Definition gmail_429 : Gmail :=
  {| threads_get := fun _ _ => GetFail (HttpError 429);
     threads_list := fun _ _ _ => no_threads;
     labels_list := fun _ => LabelsOk None |}.

(** A remote whose [threads.get] fails with a server error. *)
Definition gmail_500 : Gmail :=
  {| threads_get := fun _ _ => GetFail (HttpError 500);
     threads_list := fun _ _ _ => no_threads;
     labels_list := fun _ => LabelsOk None |}.

Definition world_empty : World := mkWorld ∅ [].

Definition world_uncached : World :=
  mkWorld (<[path_ids := Json (VArr ["t1"])]> ∅) [].

(** The cache file of [t1] does not parse. *)
Definition world_broken : World :=
  mkWorld (<[path_ids := Json (VArr ["t1"])]> (<[path_t "t1" := Unparsable]> ∅)) [].

(** An inbox of two threads listed in one page each; [t1] has no labels
    on its first message, [t2] has INBOX and L_B, named "Beta". *)
Definition gmail_inbox : Gmail :=
  {| threads_get := fun _ id =>
       if String.eqb id "t1" then answer None
       else if String.eqb id "t2" then answer (Some ["INBOX"; "L_B"])
       else GetFail (HttpError 404);
     threads_list := fun _ q tok =>
       if String.eqb q "label:inbox" then
         match tok with
         | None => ListOk {| page_threads := Some [mkThread "t1"]; nextPageToken := Some "p2" |}
         | Some _ => ListOk {| page_threads := Some [mkThread "t2"]; nextPageToken := None |}
         end
       else no_threads;
     labels_list := fun _ => LabelsOk (Some [named "INBOX" "INBOX"; named "L_B" "Beta"]) |}.



(** An account whose label list names L_A twice, the second time with
    an empty name, and has a label with the identifier [__proto__]. *)
Definition gmail_odd_labels : Gmail :=
  {| threads_get := fun _ _ => GetFail (HttpError 404);
     threads_list := fun _ _ _ => no_threads;
     labels_list := fun _ =>
       LabelsOk (Some [named "INBOX" "INBOX"; named "L_A" "Alpha";
                       named "__proto__" "Proto"; named "L_A" ""]) |}.

(** Working set [t1, t2], no thread cached. *)
Definition world_pair : World :=
  mkWorld (<[path_ids := Json (VArr ["t1"; "t2"])]> ∅) [].

(** A remote that answers for [t1] and meets every request for [t2]
    with a 429. *)
Definition gmail_t2_limited : Gmail :=
  {| threads_get := fun _ id =>
       if String.eqb id "t1" then answer (Some ["INBOX"; "L_A"])
       else GetFail (HttpError 429);
     threads_list := fun _ _ _ => no_threads;
     labels_list := fun _ => LabelsOk (Some [named "INBOX" "INBOX"; named "L_A" "Alpha"]) |}.



End Scenario.

(** ** Vocabulary of the further properties *)

(** The delays of the first [k] retries of a fetch that starts with the
    budget [retries]. *)
Fixpoint backoff (retries k : nat) : list Z :=
  match k, retries with
  | S k', S retries' => 1000 * (4 - Z.of_nat retries) :: backoff retries' k'
  | _, _ => []
  end.

(** [labelCounts[label] || 0] *)
Fixpoint count_of (label : string) (labelCounts : list (string * nat)) : nat :=
  match labelCounts with
  | [] => O
  | (k, n) :: rest => if String.eqb k label then n else count_of label rest
  end.

(** The keys phase 3 increments, one per label occurrence it counts. *)
Definition counted_keys (inboxThreadIds : gset string) (results : list LabelResult)
    : list string :=
  flat_map
    (fun t =>
       if bool_decide (lr_id t ∈ inboxThreadIds)
       then flat_map
              (fun label =>
                 if bool_decide (label = Some "INBOX") then [] else [property_key label])
              (labels_of t)
       else [])
    results.

(** How often [key] occurs in [keys]. *)
Definition occurrences (key : string) (keys : list string) : nat :=
  length (filter (fun k => k = key) keys).

(** The threads all the pages of a query hold. *)
Definition threads_counted (pages : list Page) : nat :=
  length (threads_of_pages pages).

(** What phase 2 pushes for a thread it has fetched with the labels
    [labelIds]: their names, [undefined] where the map binds none. *)
Definition fetched (labelIdToName : gmap string string) (threadId : string)
    (labelIds : list string) : LabelResult :=
  {| lr_id := threadId;
     lr_labelIds := None;
     lr_labelNames := Some (map (fun id => labelIdToName !! id) labelIds);
     lr_fromCache := false |}.



Section FurtherVocabulary.
Context {P : Platform}.

(** The line [printRow] prints for an entry. *)
Definition row_text (labelIdToName : gmap string string) (entry : string * nat) : string :=
  padEnd 30
    (if truthy_string (labelIdToName !! fst entry)
     then default "" (labelIdToName !! fst entry)
     else "(missing name: " ++ fst entry ++ ")")
  ++ pretty (snd entry).

(** The files of the two caches. *)
Definition cache_path (path : string) : Prop :=
  path = inbox_ids_path \/ exists threadId, path = thread_path threadId.

(** From [w] to [w'] no file was removed, and a file that changed is a
    file of the caches. *)
Definition touches_cache_only (w w' : World) : Prop :=
  forall path,
    files w' !! path = files w !! path \/
    (is_Some (files w' !! path) /\ cache_path path).

(** Phase 1 trusts the cache for a thread: its file holds a label list
    the stability predicate accepts. *)
Definition is_trusted (fs : gmap string File) (t : Thread) : bool :=
  match cached_labels fs (thread_id t) with
  | Some labelIds => isStableThread labelIds
  | None => false
  end.

(** The cache holds no label list for the thread. *)
Definition is_uncached (fs : gmap string File) (t : Thread) : bool :=
  match cached_labels fs (thread_id t) with
  | Some _ => false
  | None => true
  end.

(** From [w] to [w'] no file changed and no request went to
    [threads.get] or [threads.list]. *)
Definition calm (w w' : World) : Prop :=
  files w' = files w /\
  fetch_calls (events w') = fetch_calls (events w) /\
  list_calls (events w') = list_calls (events w).

(** A computation that, from every world and however it ends, removes no
    file and changes only files of the caches. *)
Definition confined {A} (m : M A) : Prop :=
  forall w, touches_cache_only w (snd (m w)).

(** The record phase 2 writes for a fetched thread. *)
Definition cache_record (labelIds : list string) (cachedAt : string) : jsval :=
  VObj [("labelIds", VArr labelIds); ("cachedAt", VStr cachedAt)].

End FurtherVocabulary.

(** * Properties *)

Section Properties.
Context {P : Platform}.

(** ** Steps of the cache operations *)

Lemma bind_throw {A B} (m : M A) (k : A -> M B) (w w' : World) (e : Exn) :
  m w = (Throw e, w') -> bind m k w = (Throw e, w').
Proof. intros Hm. unfold bind. now rewrite Hm. Qed.

Lemma bind_return {A B} (m : M A) (k : A -> M B) (w w' : World) (a : A) :
  m w = (Return a, w') -> bind m k w = k a w'.
Proof. intros Hm. unfold bind. now rewrite Hm. Qed.

Lemma getCachedThread_eq (threadId : string) (w : World) :
  getCachedThread threadId w =
    (match files w !! thread_path threadId with
     | None => Return VNull
     | Some (Json v) => Return v
     | Some Unparsable => Throw SyntaxError
     end, w).
Proof.
  unfold getCachedThread, bind, existsSync, readJson, ret.
  destruct (files w !! thread_path threadId) as [[|v]|] eqn:E; simpl; rewrite ?E; reflexivity.
Qed.

Lemma strip_prefix_app (prefix s : string) : strip_prefix prefix (prefix ++ s) = Some s.
Proof.
  induction prefix as [|c prefix IH]; [reflexivity|].
  change (String c prefix ++ s) with (String c (prefix ++ s)).
  change (strip_prefix (String c prefix) (String c (prefix ++ s)))
    with (if Ascii.eqb c c then strip_prefix prefix (prefix ++ s) else None).
  now rewrite Ascii.eqb_refl.
Qed.

Lemma string_app_assoc (a b c : string) : (a ++ b) ++ c = a ++ b ++ c.
Proof.
  induction a as [|x a IH]; [reflexivity|].
  change (String x ((a ++ b) ++ c) = String x (a ++ b ++ c)). now rewrite IH.
Qed.

(** The write of the thread ID list always goes through. *)
Lemma saveCachedInboxThreadIds_eq (ids : list string) (w : World) :
  saveCachedInboxThreadIds ids w =
    (Return tt, mkWorld (<[inbox_ids_path := Json (VArr ids)]> (files w)) (events w)).
Proof.
  unfold saveCachedInboxThreadIds, writeJson, inbox_ids_path.
  change "/inbox-thread-ids.json" with ("/" ++ "inbox-thread-ids.json").
  rewrite <- (string_app_assoc CACHE_DIR "/" "inbox-thread-ids.json"), strip_prefix_app.
  rewrite string_app_assoc.
  destruct (files w !! _); reflexivity.
Qed.

(** The write of a thread's file replaces the file, or creates it when
    the directory accepts its name. *)
Lemma writeJson_thread (threadId : string) (data : jsval) (w : World) :
  writeJson (thread_path threadId) data w =
    match files w !! thread_path threadId, file_name_error (thread_file threadId) with
    | None, Some e => (Throw e, w)
    | _, _ =>
        (Return tt,
         mkWorld (<[thread_path threadId := Json (jsonify data)]> (files w)) (events w))
    end.
Proof.
  unfold writeJson.
  replace (strip_prefix (CACHE_DIR ++ "/") (thread_path threadId))
    with (Some (thread_file threadId)); [reflexivity|].
  unfold thread_path, thread_file.
  change ("/thread-" ++ threadId ++ ".json") with ("/" ++ "thread-" ++ threadId ++ ".json").
  now rewrite <- (string_app_assoc CACHE_DIR "/"), strip_prefix_app.
Qed.

Lemma quiet_refl (w : World) : quiet w w.
Proof. repeat split. Qed.

Lemma quiet_trans (w1 w2 w3 : World) : quiet w1 w2 -> quiet w2 w3 -> quiet w1 w3.
Proof.
  intros (F1 & G1 & L1 & W1 & S1) (F2 & G2 & L2 & W2 & S2).
  repeat split; congruence.
Qed.

Lemma quiet_log (w : World) (msg : string) :
  quiet w (mkWorld (files w) (events w ++ [ELog msg])).
Proof.
  repeat split; simpl;
    unfold fetch_calls, list_calls, warnings, sleeps;
    rewrite flat_map_app; simpl; apply app_nil_r.
Qed.

Lemma quiet_out (w : World) (msg : string) :
  quiet w (mkWorld (files w) (events w ++ [EOut msg])).
Proof.
  repeat split; simpl;
    unfold fetch_calls, list_calls, warnings, sleeps;
    rewrite flat_map_app; simpl; apply app_nil_r.
Qed.

Lemma quiet_files (w w' : World) : quiet w w' -> files w' = files w.
Proof. now intros [F _]. Qed.

(** Phase 1 on a thread of the working set: the eviction branch is not
    taken, no file changes, and the variables move as [scanned] says. *)
Lemma scanThread_member (inboxThreadIds : gset string) (st : Scan) (t : Thread)
    (w : World) :
  thread_id t ∈ inboxThreadIds ->
  scanThread inboxThreadIds st t w =
    (Return (scanned (files w) st t),
     mkWorld (files w) (events w ++ [EOut (scan_progress (scanned (files w) st t))])).
Proof.
  intros Hin.
  unfold scanThread, bind at 1, try_catch, bind at 1.
  rewrite getCachedThread_eq.
  unfold scanned, cached_labels, trusted, cached_labels.
  destruct (files w !! thread_path (thread_id t)) as [[|v]|] eqn:E; simpl; try reflexivity.
  destruct (opt_prop v "labelIds") eqn:Ev; simpl; try reflexivity.
  rewrite (bool_decide_eq_true_2 _ Hin). simpl.
  destruct (isStableThread elems); reflexivity.
Qed.

Lemma scan_fold (inboxThreadIds : gset string) (threads : list Thread) :
  forall (st : Scan) (w : World),
    (forall t, t ∈ threads -> thread_id t ∈ inboxThreadIds) ->
    exists w',
      foldM (scanThread inboxThreadIds) threads st w =
        (Return (fold_left (scanned (files w)) threads st), w') /\
      quiet w w'.
Proof.
  induction threads as [|t rest IH]; intros st w Hall; simpl.
  - exists w. split; [reflexivity | apply quiet_refl].
  - unfold bind. rewrite scanThread_member by (apply Hall; left).
    destruct (IH (scanned (files w) st t)
                (mkWorld (files w) (events w ++ [EOut (scan_progress (scanned (files w) st t))])))
      as (w' & Hrun & Hq).
    { intros t' Ht'. apply Hall. now right. }
    exists w'. split; [exact Hrun|].
    eapply quiet_trans; [apply quiet_out | exact Hq].
Qed.

(** Phase 1 as a whole: it returns, and the files are the ones it found. *)
Lemma scanCache_spec (threads : list Thread) (w : World) :
  exists w',
    scanCache (list_to_set (map thread_id threads)) threads w =
      (Return (fold_left (scanned (files w)) threads (mkScan [] 0 0 [])), w') /\
    quiet w w'.
Proof.
  destruct (scan_fold (list_to_set (map thread_id threads)) threads (mkScan [] 0 0 []) w)
    as (w1 & Hrun & Hq).
  { intros t Ht. apply elem_of_list_to_set, list_elem_of_fmap. eauto. }
  eexists. split.
  - unfold scanCache, bind. rewrite Hrun. reflexivity.
  - eapply quiet_trans; [exact Hq | apply quiet_log].
Qed.

(** ** C6 *)

(** C6. The distributed stability predicate is "non-empty": it is false
    on the empty label list and true on every list with at least one
    label. *)
Theorem isStableThread_iff_nonempty :
  isStableThread [] = false /\
  (forall (label : string) (rest : list string), isStableThread (label :: rest) = true) /\
  (forall L : list string, isStableThread L = negb (bool_decide (L = []))).
Proof.
  split; [reflexivity|]. split; [reflexivity|].
  intros [|l ls]; reflexivity.
Qed.

(** ** C5 and C10 *)

(** C5. A write whose entry carries something other than an array under
    [labelIds] changes no file, does not throw, and emits one warning. *)
Theorem saveCachedThread_rejects_non_array (threadId : string) (data : jsval) (w : World) :
  data <> VNull -> data <> VUndefined ->
  isArray (opt_prop data "labelIds") = false ->
  exists w',
    saveCachedThread threadId data w = (Return tt, w') /\
    files w' = files w /\
    (forall id, getCachedThread id w' = (fst (getCachedThread id w), w')) /\
    exists msg, events w' = (events w ++ [EWarn msg])%list.
Proof.
  intros Hnull Hundef Harr.
  eexists. split.
  - unfold saveCachedThread, bind.
    destruct data; try congruence; simpl in *; rewrite ?Harr; simpl; reflexivity.
  - simpl. split; [reflexivity|]. split; [|eauto].
    intros id. rewrite !getCachedThread_eq. reflexivity.
Qed.

(** C10. A write handed [null] or [undefined] for the entry raises a
    [TypeError] at the property access, before the guard is reached: no
    warning, no file written. *)
Theorem saveCachedThread_absent_entry_raises (threadId : string) (w : World) :
  saveCachedThread threadId VNull w = (Throw TypeError, w) /\
  saveCachedThread threadId VUndefined w = (Throw TypeError, w).
Proof. split; reflexivity. Qed.

(** ** C4 *)

(** C4, as the code has it.  The read returns the parsed file, or [null]
    when there is no file; on a file that does not parse it raises the
    [SyntaxError] of [JSON.parse] to its caller and leaves the world as
    it found it.  The cache scan of the aggregation is the caller that
    catches it: the thread is queued for a fetch, counted as invalid or
    missing, and the scan goes on. *)
Theorem getCachedThread_raises_scan_recovers (threadId : string) (w : World) :
  getCachedThread threadId w =
    (match files w !! thread_path threadId with
     | None => Return VNull
     | Some (Json v) => Return v
     | Some Unparsable => Throw SyntaxError
     end, w) /\
  (files w !! thread_path threadId = Some Unparsable ->
   getCachedThread threadId w = (Throw SyntaxError, w) /\
   forall (inboxThreadIds : gset string) (st : Scan),
   exists msg,
     scanThread inboxThreadIds st (mkThread threadId) w =
       (Return (mkScan (labelResults st) (validCached st)
                  (S (invalidOrMissing st)) (toFetch st ++ [threadId])),
        mkWorld (files w) (events w ++ [EOut msg]))).
Proof.
  split; [apply getCachedThread_eq|].
  intros E. split.
  - rewrite getCachedThread_eq, E. reflexivity.
  - intros inboxThreadIds st. eexists.
    unfold scanThread, bind at 1, try_catch, bind at 1.
    rewrite getCachedThread_eq. cbn [thread_id]. rewrite E. simpl. reflexivity.
Qed.

(** ** The fetcher, attempt by attempt *)

Lemma fetch_calls_app (evs evs' : list Event) :
  fetch_calls (evs ++ evs') = (fetch_calls evs ++ fetch_calls evs')%list.
Proof. apply flat_map_app. Qed.

Lemma sleeps_app (evs evs' : list Event) :
  sleeps (evs ++ evs') = (sleeps evs ++ sleeps evs')%list.
Proof. apply flat_map_app. Qed.

(** One attempt that meets a 429 with budget left: warn, wait, go again
    with one retry less. *)
Lemma safeGetThread_retry (gmail : Gmail) (id : string) (retries : nat) (w : World) :
  threads_get gmail (length (fetch_calls (events w))) id = GetFail (HttpError 429) ->
  safeGetThread gmail id (S retries) w =
    safeGetThread gmail id retries
      (mkWorld (files w)
         (events w ++
            [EGet id;
             EWarn ("Rate limit hit. Retrying in "
                    ++ pretty (1000 * (4 - Z.of_nat (S retries))) ++ "ms...");
             ESleep (1000 * (4 - Z.of_nat (S retries)))])).
Proof.
  intros Hget.
  replace (events w ++ [EGet id; EWarn _; ESleep _])%list
    with (((events w ++ [EGet id]) ++
             [EWarn ("Rate limit hit. Retrying in "
                     ++ pretty (1000 * (4 - Z.of_nat (S retries))) ++ "ms...")]) ++
            [ESleep (1000 * (4 - Z.of_nat (S retries)))])%list
    by (rewrite <- !app_assoc; reflexivity).
  destruct retries; simpl; unfold try_catch, bind at 1, users_threads_get;
    rewrite Hget; simpl; reflexivity.
Qed.

(** An attempt that fails with the budget used up, or with anything but
    a 429, throws what it caught. *)
Lemma safeGetThread_rethrow (gmail : Gmail) (id : string) (retries : nat) (w : World)
    (err : Exn) :
  threads_get gmail (length (fetch_calls (events w))) id = GetFail err ->
  retries = O \/ response_status err <> Some 429 ->
  safeGetThread gmail id retries w = (Throw err, mkWorld (files w) (events w ++ [EGet id])).
Proof.
  intros Hget Hwhy.
  destruct retries; simpl; unfold try_catch, bind at 1, users_threads_get;
    rewrite Hget; simpl; try reflexivity.
  destruct Hwhy as [?|Hne]; [discriminate|].
  rewrite (bool_decide_eq_false_2 _ Hne). reflexivity.
Qed.

(** Phase 2 has no handler, and neither has the run: a throw of phase 2
    ends [listInboxLabelCounts] in the world the throw left, before any
    line of the report. *)
Lemma listInboxLabelCounts_throw (fuel : nat) (gmail : Gmail) (w0 w1 w2 w3 w' : World)
    (maps : LabelMaps) (threads : list Thread) (st : Scan) (err : Exn) :
  loadLabelMaps gmail w0 = (Return maps, w1) ->
  getInboxThreads fuel gmail w1 = (Return threads, w2) ->
  scanCache (list_to_set (map thread_id threads)) threads w2 = (Return st, w3) ->
  fetchMissing gmail (labelIdToName maps) st w3 = (Throw err, w') ->
  listInboxLabelCounts fuel gmail w0 = (Throw err, w').
Proof.
  intros Hmaps Hthreads Hscan Hfetch.
  unfold listInboxLabelCounts.
  rewrite (bind_return _ _ _ _ _ Hmaps), (bind_return _ _ _ _ _ Hthreads).
  apply bind_throw. unfold aggregate.
  rewrite (bind_return _ _ _ _ _ Hscan).
  apply bind_throw. exact Hfetch.
Qed.

(** ** C8 *)

Lemma list_calls_app (evs evs' : list Event) :
  list_calls (evs ++ evs') = (list_calls evs ++ list_calls evs')%list.
Proof. apply flat_map_app. Qed.

Lemma getCachedInboxThreadIds_eq (w : World) :
  getCachedInboxThreadIds w =
    match files w !! inbox_ids_path with
    | None => (Return VNull, w)
    | Some (Json v) => (Return v, w)
    | Some Unparsable =>
        (Return VNull,
         mkWorld (files w)
           (events w ++
              [EWarn "Warning: failed to load inbox thread ID cache. Refetching..."]))
    end.
Proof.
  unfold getCachedInboxThreadIds, bind, existsSync, try_catch, readJson.
  destruct (files w !! inbox_ids_path) as [[|v]|] eqn:E; simpl; rewrite ?E; reflexivity.
Qed.

(** A load that reports absence has changed no file and called nobody. *)
Lemma getCachedInboxThreadIds_absent (w w0 : World) :
  getCachedInboxThreadIds w = (Return VNull, w0) ->
  files w0 = files w /\ list_calls (events w0) = list_calls (events w).
Proof.
  rewrite getCachedInboxThreadIds_eq.
  destruct (files w !! inbox_ids_path) as [[|v]|]; intros [= <-] || intros [= _ <-];
    simpl; rewrite ?list_calls_app, ?app_nil_r; split; reflexivity.
Qed.

(** The enumeration loop follows the tokens to the last page. *)
Lemma list_inbox_pages_spec (gmail : Gmail) (n : nat) (tok : option string)
    (pages : list Page) :
  paged gmail "label:inbox" n tok pages ->
  forall (fuel : nat) (threads : list Thread) (w : World),
    n = length (list_calls (events w)) ->
    (length pages <= fuel)%nat ->
    exists w',
      list_inbox_pages fuel gmail threads tok w =
        (Return (threads ++ threads_of_pages pages)%list, w') /\
      files w' = files w /\
      list_calls (events w') =
        (list_calls (events w) ++ page_requests "label:inbox" tok pages)%list.
Proof.
  induction 1 as [n tok page Hpage Hlast | n tok page pages Hpage Hmore Hrest IH];
    intros fuel threads w Hn Hfuel;
    (destruct fuel as [|fuel]; [simpl in Hfuel; lia|]);
    cbn [list_inbox_pages]; unfold bind at 1, users_threads_list;
    rewrite <- Hn, Hpage; unfold bind at 1, stdout_write, emit; cbn [files events].
  - rewrite Hlast. eexists. split; [|split].
    + unfold ret, threads_of_pages. simpl. rewrite app_nil_r. reflexivity.
    + reflexivity.
    + cbn [events]. rewrite !list_calls_app. simpl. rewrite app_nil_r. reflexivity.
  - rewrite Hmore.
    match goal with
    | |- context [list_inbox_pages _ _ ?acc _ ?w1] =>
        destruct (IH fuel acc w1) as (w' & Hrun & Hf & Hc);
          [| |exists w'; split; [|split]]
    end.
    + cbn [events]. rewrite !list_calls_app, !length_app. simpl. lia.
    + simpl in Hfuel. lia.
    + rewrite Hrun. unfold threads_of_pages. simpl.
      rewrite <- app_assoc. reflexivity.
    + exact Hf.
    + rewrite Hc. cbn [events]. rewrite !list_calls_app. simpl.
      rewrite app_nil_r, <- app_assoc. reflexivity.
Qed.

(** C8. When the thread ID cache holds a list, the working set is that
    list: no [threads.list] call is made and no file changes (nor for
    any other value of the file that [if (threadIds)] accepts).  When the
    load reports absence, the inbox query is listed page by page, 100
    per request, each request carrying the token of the page before,
    until a page carries none; the identifiers of all threads listed are
    then written to the cache, where the next load finds them. *)
Theorem getInboxThreads_cache_or_enumerate (fuel : nat) (gmail : Gmail) (w : World) :
  (forall ids,
     files w !! inbox_ids_path = Some (Json (VArr ids)) ->
     getCachedInboxThreadIds w = (Return (VArr ids), w) /\
     exists w',
       getInboxThreads fuel gmail w = (Return (map mkThread ids), w') /\
       files w' = files w /\
       list_calls (events w') = list_calls (events w)) /\
  (forall v,
     files w !! inbox_ids_path = Some (Json v) -> truthy v = true ->
     files (snd (getInboxThreads fuel gmail w)) = files w /\
     list_calls (events (snd (getInboxThreads fuel gmail w))) = list_calls (events w)) /\
  (forall w0 pages,
     getCachedInboxThreadIds w = (Return VNull, w0) ->
     paged gmail "label:inbox" (length (list_calls (events w0))) None pages ->
     (length pages <= fuel)%nat ->
     exists w',
       getInboxThreads fuel gmail w = (Return (threads_of_pages pages), w') /\
       files w' =
         <[inbox_ids_path := Json (VArr (map thread_id (threads_of_pages pages)))]> (files w) /\
       list_calls (events w') =
         (list_calls (events w) ++ page_requests "label:inbox" None pages)%list /\
       getCachedInboxThreadIds w' =
         (Return (VArr (map thread_id (threads_of_pages pages))), w')).
Proof.
  split; [|split].
  - intros ids E.
    assert (Hload : getCachedInboxThreadIds w = (Return (VArr ids), w))
      by (rewrite getCachedInboxThreadIds_eq, E; reflexivity).
    split; [exact Hload|].
    eexists. split.
    + unfold getInboxThreads. rewrite (bind_return _ _ _ _ _ Hload). reflexivity.
    + simpl. split; [reflexivity|].
      rewrite list_calls_app. simpl. apply app_nil_r.
  - intros v E Hv.
    assert (Hload : getCachedInboxThreadIds w = (Return v, w))
      by (rewrite getCachedInboxThreadIds_eq, E; reflexivity).
    unfold getInboxThreads. rewrite (bind_return _ _ _ _ _ Hload), Hv.
    destruct v; simpl; rewrite list_calls_app; simpl; rewrite app_nil_r;
      split; reflexivity.
  - intros w0 pages Hload Hpaged Hfuel.
    destruct (getCachedInboxThreadIds_absent _ _ Hload) as [Hf0 Hc0].
    destruct (list_inbox_pages_spec gmail _ _ _ Hpaged fuel [] w0 eq_refl Hfuel)
      as (w1 & Hrun & Hf1 & Hc1).
    simpl in Hrun.
    eexists. split; [|split; [|split]].
    + unfold getInboxThreads. rewrite (bind_return _ _ _ _ _ Hload).
      cbn [truthy]. rewrite (bind_return _ _ _ _ _ Hrun).
      unfold bind, log, emit. rewrite saveCachedInboxThreadIds_eq. reflexivity.
    + cbn [files]. rewrite Hf1, Hf0. reflexivity.
    + cbn [events]. rewrite list_calls_app, Hc1, Hc0. simpl. apply app_nil_r.
    + rewrite getCachedInboxThreadIds_eq. cbn [files].
      rewrite lookup_insert_eq. reflexivity.
Qed.

(** ** The aggregation on a primed cache *)

Lemma scanned_trusted (fs : gmap string File) (st : Scan) (t : Thread)
    (labelIds : list string) :
  cached_labels fs (thread_id t) = Some labelIds -> labelIds <> [] ->
  scanned fs st t =
    mkScan (labelResults st ++ [trusted fs t]) (S (validCached st))
      (invalidOrMissing st) (toFetch st).
Proof.
  intros Hc Hne. unfold scanned. rewrite Hc.
  destruct labelIds; [congruence | reflexivity].
Qed.





(** On a primed cache phase 1 trusts every thread and queues none. *)
Lemma scan_primed (fs : gmap string File) (threads : list Thread) :
  primed fs threads ->
  forall st : Scan,
    fold_left (scanned fs) threads st =
      mkScan (labelResults st ++ map (trusted fs) threads)
        (validCached st + length threads) (invalidOrMissing st) (toFetch st).
Proof.
  induction threads as [|t rest IH]; intros Hp st; simpl.
  - rewrite app_nil_r, Nat.add_0_r. now destruct st.
  - destruct (Hp t) as (l & Hc & Hne); [left|].
    rewrite (scanned_trusted fs st t l Hc Hne).
    rewrite IH by (intros t' Ht'; apply Hp; now right).
    simpl. rewrite <- app_assoc. simpl. f_equal. lia.
Qed.

Lemma fetchMissing_nothing (gmail : Gmail) (names : gmap string string) (st : Scan)
    (w : World) :
  toFetch st = [] ->
  fetchMissing gmail names st w =
    (Return (labelResults st), mkWorld (files w) (events w ++ [ELog ""])).
Proof. intros Hq. unfold fetchMissing. rewrite Hq. reflexivity. Qed.

(** On a primed cache the aggregation is a function of the files and the
    working set, and prints only. *)
Lemma aggregate_primed (gmail : Gmail) (names : gmap string string)
    (threads : list Thread) (w : World) :
  primed (files w) threads ->
  exists w',
    aggregate gmail names threads w =
      (Return (countLabels (list_to_set (map thread_id threads))
                 (map (trusted (files w)) threads)), w') /\
    quiet w w'.
Proof.
  intros Hp.
  destruct (scanCache_spec threads w) as (w1 & Hscan & Hq).
  rewrite (scan_primed _ _ Hp) in Hscan. simpl in Hscan.
  eexists. split.
  - unfold aggregate. rewrite (bind_return _ _ _ _ _ Hscan).
    unfold bind at 1. rewrite fetchMissing_nothing by reflexivity.
    reflexivity.
  - eapply quiet_trans; [exact Hq | apply quiet_log].
Qed.

End Properties.

(** * The properties at concrete runs *)

Import Scenario.

(** ** C1 *)

(** C1, the run of the scenario.  Working set [t1, t2], [t1] cached with
    INBOX and L_A, [t2] fetched with INBOX and L_B, which the account
    names "Beta".  The run fetches [t2] only and writes its label
    identifiers to the cache, INBOX is left out of the counts, and L_A
    is counted once under its identifier; but the fetched label is
    counted under its name: the table is {L_A: 1, Beta: 1}, not
    {L_A: 1, L_B: 1}, and the report looks "Beta" up as an identifier
    and prints it as a label without a name. *)
Theorem two_thread_scenario_counts_fetched_label_by_name :
  let r := listInboxLabelCounts (P := platform) 5 gmail_two world_two in
  cached_labels (P := platform) (files world_two) "t1" = Some ["INBOX"; "L_A"] /\
  cached_labels (P := platform) (files world_two) "t2" = None /\
  fst r = Return {| labelCounts := [("L_A", 1%nat); ("Beta", 1%nat)];
                    usedCache := 1; usedApi := 1 |} /\
  fetch_calls (events (snd r)) = ["t2"] /\
  cached_labels (P := platform) (files (snd r)) "t2" = Some ["INBOX"; "L_B"] /\
  warnings (events (snd r)) = ["Warning: missing label name for ID 'Beta'"] /\
  In (padEnd 30 "(missing name: Beta)" ++ "1") (logged (events (snd r))).
Proof.
  vm_compute. repeat split; try reflexivity. tauto.
Qed.

(** ** C2 *)

(** C2, at a cache with a stale entry.  Phase 1 looks up the threads of
    the working set only, and each of them is in [inboxThreadIds], so
    the branch that unlinks a cache file is never taken: phase 1 leaves
    every file as it found it, whatever the working set.  In the run
    with working set [t1] and a cached entry for [t9], the entry of [t9]
    is still on disk at the end; its labels are not counted. *)
Theorem stale_entry_is_not_evicted :
  (forall (P : Platform) (threads : list Thread) (w : World),
     files (snd (scanCache (P := P) (list_to_set (map thread_id threads)) threads w))
       = files w) /\
  let r := listInboxLabelCounts (P := platform) 5 gmail_two world_stale in
  cached_labels (P := platform) (files world_stale) "t9" = Some ["INBOX"; "L_Z"] /\
  fst r = Return {| labelCounts := [("L_A", 1%nat)]; usedCache := 1; usedApi := 0 |} /\
  files (snd r) = files world_stale /\
  cached_labels (P := platform) (files (snd r)) "t9" = Some ["INBOX"; "L_Z"].
Proof.
  split.
  - intros P threads w.
    destruct (scanCache_spec (P := P) threads w) as (w' & Hrun & Hq).
    rewrite Hrun. simpl. exact (quiet_files _ _ Hq).
  - vm_compute. repeat split; reflexivity.
Qed.

(** ** C9 *)


(** ** C3 *)

(** C3 as stated fails when the remote stops answering 429 after the
    third time: the fetcher has made three retries, the third of them
    is answered with the thread, and the fetch succeeds. *)
Lemma safeGetThread_three_429_then_success :
  (forall n, (n < 3)%nat -> threads_get gmail_429x3 n "t1" = GetFail (HttpError 429)) /\
  let r := safeGetThread gmail_429x3 "t1" 3 world_empty in
  fst r = Return (Some [{| msg_labelIds := Some ["INBOX"; "L_A"] |}]) /\
  fetch_calls (events (snd r)) = ["t1"; "t1"; "t1"; "t1"] /\
  sleeps (events (snd r)) = [1000; 2000; 3000].
Proof.
  split.
  - intros n Hn. simpl. destruct (Nat.ltb_spec n 3); [reflexivity | lia].
  - vm_compute. repeat split; reflexivity.
Qed.

(** ** C4 *)

(** C4 as stated fails on a cache file that does not parse: the read
    raises, and the world, its trace of warnings included, is as
    before. *)
Lemma getCachedThread_unparsable_raises :
  files world_broken !! path_t "t1" = Some Unparsable /\
  getCachedThread (P := platform) "t1" world_broken = (Throw SyntaxError, world_broken) /\
  warnings (events (snd (getCachedThread (P := platform) "t1" world_broken))) = [].
Proof. vm_compute. repeat split; reflexivity. Qed.

Lemma getCachedThread_raises_scan_recovers_witness :
  files world_broken !! thread_path (P := platform) "t1" = Some Unparsable /\
  getCachedThread (P := platform) "t1" world_broken = (Throw SyntaxError, world_broken) /\
  forall (inboxThreadIds : gset string) (st : Scan),
  exists msg,
    scanThread (P := platform) inboxThreadIds st (mkThread "t1") world_broken =
      (Return (mkScan (labelResults st) (validCached st)
                 (S (invalidOrMissing st)) (toFetch st ++ ["t1"])),
       mkWorld (files world_broken) (events world_broken ++ [EOut msg])).
Proof.
  assert (E : files world_broken !! thread_path (P := platform) "t1" = Some Unparsable)
    by (vm_compute; reflexivity).
  split; [exact E|].
  exact (proj2 (getCachedThread_raises_scan_recovers (P := platform) "t1" world_broken) E).
Defined.

(** ** C5 *)

Lemma saveCachedThread_rejects_non_array_witness :
  let data := VObj [("labelIds", VStr "INBOX"); ("cachedAt", VStr "2025-06-01T12:00:00.000Z")] in
  data <> VNull /\ data <> VUndefined /\
  isArray (opt_prop data "labelIds") = false /\
  exists w',
    saveCachedThread (P := platform) "t1" data world_two = (Return tt, w') /\
    files w' = files world_two /\
    (forall id, getCachedThread (P := platform) id w'
                = (fst (getCachedThread (P := platform) id world_two), w')) /\
    exists msg, events w' = (events world_two ++ [EWarn msg])%list.
Proof.
  intros data.
  assert (H1 : data <> VNull) by (subst data; congruence).
  assert (H2 : data <> VUndefined) by (subst data; congruence).
  assert (H3 : isArray (opt_prop data "labelIds") = false) by reflexivity.
  split; [exact H1|]. split; [exact H2|]. split; [exact H3|].
  exact (saveCachedThread_rejects_non_array (P := platform) "t1" data world_two H1 H2 H3).
Defined.

(** ** C7 *)


(** ** C8 *)

Lemma getInboxThreads_cache_or_enumerate_witness :
  let p1 := {| page_threads := Some [mkThread "t1"]; nextPageToken := Some "p2" |} in
  let p2 := {| page_threads := Some [mkThread "t2"]; nextPageToken := None |} in
  files world_two !! inbox_ids_path (P := platform) = Some (Json (VArr ["t1"; "t2"])) /\
  (exists w',
     getInboxThreads (P := platform) 5 gmail_inbox world_two
       = (Return [mkThread "t1"; mkThread "t2"], w') /\
     files w' = files world_two /\
     list_calls (events w') = []) /\
  truthy (VArr ["t1"; "t2"]) = true /\
  list_calls (events (snd (getInboxThreads (P := platform) 5 gmail_inbox world_two))) = [] /\
  getCachedInboxThreadIds (P := platform) world_empty = (Return VNull, world_empty) /\
  paged gmail_inbox "label:inbox" 0 None [p1; p2] /\
  (exists w',
     getInboxThreads (P := platform) 5 gmail_inbox world_empty
       = (Return [mkThread "t1"; mkThread "t2"], w') /\
     files w' = {[inbox_ids_path (P := platform) := Json (VArr ["t1"; "t2"])]} /\
     list_calls (events w') =
       [("label:inbox", 100, None); ("label:inbox", 100, Some "p2")] /\
     getCachedInboxThreadIds (P := platform) w' = (Return (VArr ["t1"; "t2"]), w')).
Proof.
  intros p1 p2.
  assert (E : files world_two !! inbox_ids_path (P := platform)
              = Some (Json (VArr ["t1"; "t2"]))) by (vm_compute; reflexivity).
  assert (Hload : getCachedInboxThreadIds (P := platform) world_empty
                  = (Return VNull, world_empty)) by reflexivity.
  assert (Hpaged : paged gmail_inbox "label:inbox"
                     (length (list_calls (events world_empty))) None [p1; p2]).
  { apply paged_more; [reflexivity | reflexivity |].
    apply paged_last; reflexivity. }
  assert (Hfuel : (length [p1; p2] <= 5)%nat) by (simpl; lia).
  assert (Hv : truthy (VArr ["t1"; "t2"]) = true) by reflexivity.
  split; [exact E|].
  split; [|split; [exact Hv|split; [|split; [exact Hload|split; [exact Hpaged|]]]]].
  - destruct (proj1 (getInboxThreads_cache_or_enumerate (P := platform) 5 gmail_inbox world_two)
                _ E) as (_ & w' & Hrun & Hf & Hc).
    exists w'. split; [exact Hrun|]. split; [exact Hf | exact Hc].
  - exact (proj2 (proj1 (proj2 (getInboxThreads_cache_or_enumerate (P := platform) 5
                                  gmail_inbox world_two)) _ E Hv)).
  - destruct (proj2 (proj2 (getInboxThreads_cache_or_enumerate (P := platform) 5 gmail_inbox
                              world_empty)) world_empty [p1; p2] Hload Hpaged Hfuel)
      as (w' & Hrun & Hf & Hc & Hnext).
    exists w'. split; [exact Hrun|]. split; [exact Hf|]. split; [exact Hc | exact Hnext].
Defined.

(** * Further properties of the script *)

Section FurtherProperties.
Context {P : Platform}.

(** ** Paths *)

Lemma list_ascii_of_string_app (a b : string) :
  list_ascii_of_string (a ++ b) = (list_ascii_of_string a ++ list_ascii_of_string b)%list.
Proof. induction a as [|c a IH]; simpl; [reflexivity | now rewrite <- IH]. Qed.

Lemma string_app_inv_tail (a b s : string) : a ++ s = b ++ s -> a = b.
Proof.
  intros E. apply (f_equal list_ascii_of_string) in E.
  rewrite !list_ascii_of_string_app in E. apply app_inv_tail in E.
  rewrite <- (string_of_list_ascii_of_string a), <- (string_of_list_ascii_of_string b).
  now rewrite E.
Qed.

Lemma thread_path_inj (a b : string) : thread_path a = thread_path b -> a = b.
Proof.
  unfold thread_path. intros E.
  apply (inj (String.app CACHE_DIR)) in E.
  apply (inj (String.app "/thread-")) in E.
  now apply string_app_inv_tail in E.
Qed.

Lemma thread_path_not_ids (a : string) : thread_path a <> inbox_ids_path.
Proof.
  unfold thread_path, inbox_ids_path. intros E.
  apply (inj (String.app CACHE_DIR)) in E.
  cbv [String.append] in E. discriminate.
Qed.

(** ** The thread ID cache *)

(** X1. What [saveCachedInboxThreadIds] writes is what the next
    [getCachedInboxThreadIds] returns, from any state of the cache
    (missing, unparsable or holding an older list), without a warning;
    the save touches no other file. *)
Theorem inbox_ids_round_trip (ids : list string) (w : World) :
  exists w',
    saveCachedInboxThreadIds ids w = (Return tt, w') /\
    getCachedInboxThreadIds w' = (Return (VArr ids), w') /\
    events w' = events w /\
    (forall path, path <> inbox_ids_path -> files w' !! path = files w !! path) /\
    (forall threadId, getCachedThread threadId w' = (fst (getCachedThread threadId w), w')).
Proof.
  eexists. split; [apply saveCachedInboxThreadIds_eq|].
  split; [|split; [reflexivity|split]].
  - rewrite getCachedInboxThreadIds_eq. cbn [files]. now rewrite lookup_insert_eq.
  - intros path Hne. cbn [files]. now rewrite lookup_insert_ne.
  - intros threadId. rewrite !getCachedThread_eq. cbn [files].
    rewrite lookup_insert_ne by (intros E; symmetry in E; now apply thread_path_not_ids in E).
    reflexivity.
Qed.

(** X2. [getCachedInboxThreadIds] fails soft: it never throws and never
    changes a file.  On a file that does not parse it returns [null]
    after exactly one warning; otherwise it returns the parsed value or
    [null] and prints nothing. *)
Theorem getCachedInboxThreadIds_fails_soft (w : World) :
  exists v w',
    getCachedInboxThreadIds w = (Return v, w') /\
    files w' = files w /\
    match files w !! inbox_ids_path with
    | Some Unparsable =>
        v = VNull /\
        events w' =
          (events w ++
             [EWarn "Warning: failed to load inbox thread ID cache. Refetching..."])%list
    | Some (Json parsed) => v = parsed /\ events w' = events w
    | None => v = VNull /\ events w' = events w
    end.
Proof.
  rewrite getCachedInboxThreadIds_eq.
  destruct (files w !! inbox_ids_path) as [[|parsed]|]; eexists; eexists;
    (split; [reflexivity|]); simpl; auto.
Qed.

(** ** The thread metadata cache *)

Lemma labelIds_survive_json (fields : list (string * jsval)) (labelIds : list string) :
  field "labelIds" fields = VArr labelIds ->
  opt_prop (jsonify (VObj fields)) "labelIds" = VArr labelIds.
Proof.
  induction fields as [|[k v] rest IH]; simpl; [discriminate|].
  destruct (String.eqb k "labelIds") eqn:Ek.
  - intros ->. simpl. now rewrite Ek.
  - intros Hrest. specialize (IH Hrest). simpl in IH.
    destruct v; simpl; rewrite ?Ek; exact IH.
Qed.

(** A write whose entry carries a label array is the write of the file. *)
Lemma saveCachedThread_array (threadId : string) (data : jsval) (labelIds : list string)
    (w : World) :
  opt_prop data "labelIds" = VArr labelIds ->
  saveCachedThread threadId data w =
    match files w !! thread_path threadId, file_name_error (thread_file threadId) with
    | None, Some e => (Throw e, w)
    | _, _ =>
        (Return tt,
         mkWorld (<[thread_path threadId := Json (jsonify data)]> (files w)) (events w))
    end.
Proof.
  intros Hl. destruct data; try discriminate. simpl in Hl.
  unfold saveCachedThread, bind, get_prop, ret. rewrite Hl. cbn [isArray negb].
  apply writeJson_thread.
Qed.

Lemma saveCachedThread_other_files (threadId : string) (data : jsval) (w : World)
    (path : string) :
  path <> thread_path threadId ->
  files (snd (saveCachedThread threadId data w)) !! path = files w !! path.
Proof.
  intros Hne. unfold saveCachedThread, bind.
  destruct data; simpl; try reflexivity.
  destruct (isArray (field "labelIds" fields)); simpl; [|reflexivity].
  rewrite writeJson_thread.
  destruct (files w !! thread_path threadId), (file_name_error (thread_file threadId));
    cbn [snd files]; try reflexivity; now rewrite lookup_insert_ne.
Qed.

(** X3. Round trip of the thread metadata cache.  For an entry that
    carries an array under [labelIds]: when the thread's file exists
    already, or its name is one the cache directory accepts (no slash,
    no null byte, at most 255 bytes), the write returns without a
    warning, and the next read of that thread returns the entry as JSON
    keeps it, with the same label list; the record the script itself
    writes, a label list with a timestamp, is read back unchanged.  When
    there is no such file and the directory refuses the name, a name
    that [path.join] leaves as it is, the write throws and nothing is
    written. *)
Theorem thread_cache_round_trip (threadId : string) (data : jsval)
    (labelIds : list string) (w : World) :
  opt_prop data "labelIds" = VArr labelIds ->
  (is_Some (files w !! thread_path threadId) \/
   file_name_error (thread_file threadId) = None ->
   exists w',
     saveCachedThread threadId data w = (Return tt, w') /\
     events w' = events w /\
     getCachedThread threadId w' = (Return (jsonify data), w') /\
     cached_labels (files w') threadId = Some labelIds /\
     forall cachedAt,
       data = cache_record labelIds cachedAt ->
       getCachedThread threadId w' = (Return (cache_record labelIds cachedAt), w')) /\
  (files w !! thread_path threadId = None ->
   normal_path (thread_file threadId) = true ->
   file_name_error (thread_file threadId) <> None ->
   exists e, saveCachedThread threadId data w = (Throw e, w)).
Proof.
  intros Hl. split.
  - intros Hok.
    exists (mkWorld (<[thread_path threadId := Json (jsonify data)]> (files w)) (events w)).
    split.
    { rewrite (saveCachedThread_array _ _ _ _ Hl).
      destruct Hok as [[f Hf]| Hname]; [now rewrite Hf|].
      rewrite Hname. now destruct (files w !! thread_path threadId). }
    split; [reflexivity|].
    assert (Hread : getCachedThread threadId
                      (mkWorld (<[thread_path threadId := Json (jsonify data)]> (files w))
                         (events w))
                    = (Return (jsonify data),
                       mkWorld (<[thread_path threadId := Json (jsonify data)]> (files w))
                         (events w))).
    { rewrite getCachedThread_eq. cbn [files]. now rewrite lookup_insert_eq. }
    split; [exact Hread|]. split.
    + unfold cached_labels. cbn [files]. rewrite lookup_insert_eq.
      destruct data; try discriminate. simpl in Hl.
      now rewrite (labelIds_survive_json _ _ Hl).
    + intros cachedAt E. rewrite Hread, E. reflexivity.
  - intros Hnone _ Hname.
    rewrite (saveCachedThread_array _ _ _ _ Hl), Hnone.
    destruct (file_name_error (thread_file threadId)) as [e|]; [eauto | congruence].
Qed.

(** X4. A write to the thread metadata cache is local to its thread: the
    read of any other thread, and the load of the thread ID list, return
    what they returned before. *)
Theorem saveCachedThread_is_local (threadId : string) (data : jsval) (w : World) :
  let w' := snd (saveCachedThread threadId data w) in
    (forall other, other <> threadId ->
       getCachedThread other w' = (fst (getCachedThread other w), w')) /\
    (forall other, other <> threadId ->
       cached_labels (files w') other = cached_labels (files w) other) /\
    files w' !! inbox_ids_path = files w !! inbox_ids_path.
Proof.
  intros w'. subst w'.
  assert (Hfiles := saveCachedThread_other_files threadId data w).
  split; [|split].
  - intros other Hne. rewrite !getCachedThread_eq.
    rewrite Hfiles by (intros E; now apply thread_path_inj in E). reflexivity.
  - intros other Hne. unfold cached_labels.
    rewrite Hfiles by (intros E; now apply thread_path_inj in E). reflexivity.
  - apply Hfiles. intros E. symmetry in E. now apply thread_path_not_ids in E.
Qed.

(** ** The fetcher *)

Lemma safeGetThread_answer (gmail : Gmail) (id : string) (retries : nat) (w : World)
    (m : Message) (ms : list Message) :
  threads_get gmail (length (fetch_calls (events w))) id = GetOk (Some (m :: ms)) ->
  safeGetThread gmail id retries w =
    (Return (Some (m :: ms)),
     mkWorld (files w)
       (if missing_or_empty (msg_labelIds m)
        then (events w ++ [EGet id]) ++
               [EWarn ("Thread " ++ id ++ " returned with missing or empty labels.")]
        else events w ++ [EGet id])%list).
Proof.
  intros Hget.
  destruct retries; simpl; unfold try_catch, bind at 1, users_threads_get;
    rewrite Hget; unfold bind, ret, first_labelIds; simpl;
    destruct (missing_or_empty (msg_labelIds m)); reflexivity.
Qed.

Lemma safeGetThread_no_message (gmail : Gmail) (id : string) (retries : nat) (w : World)
    (messages : option (list Message)) :
  threads_get gmail (length (fetch_calls (events w))) id = GetOk messages ->
  messages = None \/ messages = Some [] ->
  safeGetThread gmail id retries w =
    (Throw TypeError, mkWorld (files w) (events w ++ [EGet id])).
Proof.
  intros Hget Hnone.
  destruct retries; simpl; unfold try_catch, bind at 1, users_threads_get;
    rewrite Hget; destruct Hnone as [-> | ->]; reflexivity.
Qed.

(** X5. An answer with a first message is returned whatever its labels:
    a missing or empty label list is logged with one warning and is not
    an error.  An answer without a first message makes the fetch fail
    with a [TypeError] at once: the handler retries on a 429 only, so no
    retry is made and no delay is waited even when the budget is
    untouched. *)
Theorem safeGetThread_answers (gmail : Gmail) (id : string) (retries : nat) (w : World) :
  (forall m ms,
     threads_get gmail (length (fetch_calls (events w))) id = GetOk (Some (m :: ms)) ->
     exists w',
       safeGetThread gmail id retries w = (Return (Some (m :: ms)), w') /\
       files w' = files w /\
       fetch_calls (events w') = (fetch_calls (events w) ++ [id])%list /\
       sleeps (events w') = sleeps (events w) /\
       warnings (events w') =
         (warnings (events w) ++
            match msg_labelIds m with
            | Some (_ :: _) => []
            | _ => [("Thread " ++ id ++ " returned with missing or empty labels.")%string]
            end)%list) /\
  (forall messages,
     threads_get gmail (length (fetch_calls (events w))) id = GetOk messages ->
     messages = None \/ messages = Some [] ->
     safeGetThread gmail id retries w =
       (Throw TypeError, mkWorld (files w) (events w ++ [EGet id]))).
Proof.
  split.
  - intros m ms Hget. eexists. split; [now apply safeGetThread_answer|].
    cbn [files events]. split; [reflexivity|].
    unfold missing_or_empty.
    destruct (msg_labelIds m) as [[|l ls]|];
      unfold fetch_calls, sleeps, warnings; rewrite !flat_map_app; simpl;
      rewrite ?app_nil_r; repeat split; reflexivity.
  - intros messages Hget Hnone. eapply safeGetThread_no_message; eassumption.
Qed.

Lemma warnings_app (evs evs' : list Event) :
  warnings (evs ++ evs') = (warnings evs ++ warnings evs')%list.
Proof. apply flat_map_app. Qed.

Lemma safeGetThread_files (gmail : Gmail) (id : string) (retries : nat) :
  forall w : World, files (snd (safeGetThread gmail id retries w)) = files w.
Proof.
  induction retries as [|r IH]; intros w.
  - destruct (threads_get gmail (length (fetch_calls (events w))) id) as [[[|m ms]|]|err] eqn:E.
    + now erewrite safeGetThread_no_message by eauto.
    + now erewrite safeGetThread_answer by eauto.
    + now erewrite safeGetThread_no_message by eauto.
    + now erewrite safeGetThread_rethrow by eauto.
  - destruct (threads_get gmail (length (fetch_calls (events w))) id) as [[[|m ms]|]|err] eqn:E.
    + now erewrite safeGetThread_no_message by eauto.
    + now erewrite safeGetThread_answer by eauto.
    + now erewrite safeGetThread_no_message by eauto.
    + destruct (decide (response_status err = Some 429)) as [H429|Hne].
      * destruct err; try discriminate. injection H429 as ->.
        rewrite safeGetThread_retry by exact E. now rewrite IH.
      * now erewrite safeGetThread_rethrow by eauto.
Qed.

(** X6. Whatever the remote answers and however the fetch ends, a fetch
    with budget [retries] makes at least one and at most [retries + 1]
    requests, all for its own thread, waits once before each request
    after the first, with the delays of [backoff], each longer than the
    one before, and changes no file and lists nothing.  With the
    script's budget of 3 that is at most four requests and the waits are
    the first of 1000, 2000, 3000 ms. *)
Theorem safeGetThread_bounded (gmail : Gmail) (id : string) (retries : nat) (w : World) :
  let w' := snd (safeGetThread gmail id retries w) in
  files w' = files w /\
  list_calls (events w') = list_calls (events w) /\
  (exists k,
     (k <= retries)%nat /\
     fetch_calls (events w') = (fetch_calls (events w) ++ replicate (S k) id)%list /\
     sleeps (events w') = (sleeps (events w) ++ backoff retries k)%list) /\
  (forall k, backoff 3 k = take k [1000; 2000; 3000]) /\
  (forall r k, StronglySorted Z.lt (backoff r k)).
Proof.
  cbn zeta. split; [|split; [|split; [|split]]].
  - apply safeGetThread_files.
  - revert w. induction retries as [|r IH]; intros w.
    + destruct (threads_get gmail (length (fetch_calls (events w))) id) as [[[|m ms]|]|err] eqn:E.
      * erewrite safeGetThread_no_message by eauto. cbn [snd events].
        rewrite list_calls_app. simpl. apply app_nil_r.
      * erewrite safeGetThread_answer by eauto. cbn [snd events].
        destruct (missing_or_empty _); rewrite !list_calls_app; simpl;
          rewrite ?app_nil_r; reflexivity.
      * erewrite safeGetThread_no_message by eauto. cbn [snd events].
        rewrite list_calls_app. simpl. apply app_nil_r.
      * erewrite safeGetThread_rethrow by eauto. cbn [snd events].
        rewrite list_calls_app. simpl. apply app_nil_r.
    + destruct (threads_get gmail (length (fetch_calls (events w))) id) as [[[|m ms]|]|err] eqn:E.
      * erewrite safeGetThread_no_message by eauto. cbn [snd events].
        rewrite list_calls_app. simpl. apply app_nil_r.
      * erewrite safeGetThread_answer by eauto. cbn [snd events].
        destruct (missing_or_empty _); rewrite !list_calls_app; simpl;
          rewrite ?app_nil_r; reflexivity.
      * erewrite safeGetThread_no_message by eauto. cbn [snd events].
        rewrite list_calls_app. simpl. apply app_nil_r.
      * destruct (decide (response_status err = Some 429)) as [H429|Hne].
        -- destruct err; try discriminate. injection H429 as ->.
           rewrite safeGetThread_retry by exact E. rewrite IH. cbn [events].
           rewrite list_calls_app. simpl. apply app_nil_r.
        -- erewrite safeGetThread_rethrow by eauto. cbn [snd events].
           rewrite list_calls_app. simpl. apply app_nil_r.
  - revert w. induction retries as [|r IH]; intros w.
    + exists O. split; [lia|].
      destruct (threads_get gmail (length (fetch_calls (events w))) id) as [[[|m ms]|]|err] eqn:E.
      * erewrite safeGetThread_no_message by eauto. cbn [snd events].
        rewrite fetch_calls_app, sleeps_app. simpl. now rewrite !app_nil_r.
      * erewrite safeGetThread_answer by eauto. cbn [snd events].
        destruct (missing_or_empty _); rewrite !fetch_calls_app, !sleeps_app; simpl;
          now rewrite ?app_nil_r.
      * erewrite safeGetThread_no_message by eauto. cbn [snd events].
        rewrite fetch_calls_app, sleeps_app. simpl. now rewrite !app_nil_r.
      * erewrite safeGetThread_rethrow by eauto. cbn [snd events].
        rewrite fetch_calls_app, sleeps_app. simpl. now rewrite !app_nil_r.
    + destruct (threads_get gmail (length (fetch_calls (events w))) id) as [[[|m ms]|]|err] eqn:E.
      * exists O. split; [lia|].
        erewrite safeGetThread_no_message by eauto. cbn [snd events].
        rewrite fetch_calls_app, sleeps_app. simpl. now rewrite !app_nil_r.
      * exists O. split; [lia|].
        erewrite safeGetThread_answer by eauto. cbn [snd events].
        destruct (missing_or_empty _); rewrite !fetch_calls_app, !sleeps_app; simpl;
          now rewrite ?app_nil_r.
      * exists O. split; [lia|].
        erewrite safeGetThread_no_message by eauto. cbn [snd events].
        rewrite fetch_calls_app, sleeps_app. simpl. now rewrite !app_nil_r.
      * destruct (decide (response_status err = Some 429)) as [H429|Hne].
        -- destruct err; try discriminate. injection H429 as ->.
           rewrite safeGetThread_retry by exact E.
           destruct (IH (mkWorld (files w)
                           (events w ++
                              [EGet id;
                               EWarn ("Rate limit hit. Retrying in "
                                      ++ pretty (1000 * (4 - Z.of_nat (S r))) ++ "ms...");
                               ESleep (1000 * (4 - Z.of_nat (S r)))])))
             as (k & Hk & Hcalls & Hsleeps).
           exists (S k). split; [lia|].
           rewrite Hcalls, Hsleeps. cbn [events].
           rewrite fetch_calls_app, sleeps_app. simpl.
           rewrite <- !app_assoc. split; reflexivity.
        -- exists O. split; [lia|].
           erewrite safeGetThread_rethrow by eauto. cbn [snd events].
           rewrite fetch_calls_app, sleeps_app. simpl. now rewrite !app_nil_r.
  - intros [|[|[|[|k]]]]; reflexivity.
  - induction r as [|r IH]; intros [|k]; simpl; try constructor.
    + apply IH.
    + clear IH. revert k. induction r as [|r IHr]; intros [|k]; simpl; constructor.
      * lia.
      * specialize (IHr k). simpl in IHr.
        eapply Forall_impl; [exact IHr|]. intros z Hz. simpl in Hz. lia.
Qed.

(** X7. A fetch rides out rate limiting that ends within its budget:
    when the remote answers the first [k] requests with 429, [k] at most
    the budget, and the next one with the thread, the fetch returns that
    answer after exactly [k] retries and the waits of [backoff]. *)
Theorem safeGetThread_recovers (gmail : Gmail) (id : string) (k : nat) :
  forall (retries : nat) (w : World) (m : Message) (ms : list Message),
    (k <= retries)%nat ->
    (forall i, (i < k)%nat ->
       threads_get gmail (length (fetch_calls (events w)) + i) id = GetFail (HttpError 429)) ->
    threads_get gmail (length (fetch_calls (events w)) + k) id = GetOk (Some (m :: ms)) ->
    exists w',
      safeGetThread gmail id retries w = (Return (Some (m :: ms)), w') /\
      files w' = files w /\
      fetch_calls (events w') = (fetch_calls (events w) ++ replicate (S k) id)%list /\
      sleeps (events w') = (sleeps (events w) ++ backoff retries k)%list.
Proof.
  induction k as [|k IH]; intros retries w m ms Hk H429 Hok.
  - rewrite Nat.add_0_r in Hok.
    rewrite (safeGetThread_answer _ _ _ _ _ _ Hok).
    eexists. split; [reflexivity|]. cbn [files events]. split; [reflexivity|].
    destruct (missing_or_empty _), retries; rewrite !fetch_calls_app, !sleeps_app; simpl;
      rewrite ?app_nil_r; split; reflexivity.
  - destruct retries as [|r]; [lia|].
    rewrite safeGetThread_retry
      by (rewrite <- (H429 O) by lia; f_equal; lia).
    match goal with
    | |- context [safeGetThread _ _ _ ?w1] =>
        destruct (IH r w1 m ms) as (w' & Hrun & Hf & Hcalls & Hsleeps)
    end.
    + lia.
    + intros i Hi. cbn [events]. rewrite fetch_calls_app, length_app. simpl.
      rewrite <- (H429 (S i)) by lia. f_equal. lia.
    + cbn [events]. rewrite fetch_calls_app, length_app. simpl.
      rewrite <- Hok. f_equal. lia.
    + exists w'. split; [exact Hrun|]. split; [exact Hf|].
      rewrite Hcalls, Hsleeps. cbn [events].
      rewrite fetch_calls_app, sleeps_app. simpl.
      rewrite <- !app_assoc. split; reflexivity.
Qed.

(** ** Label names *)

Lemma set_property_eq (obj : gmap string string) (key value : string) :
  key <> "__proto__" -> set_property obj key value !! key = Some value.
Proof.
  intros Hk. unfold set_property.
  destruct (String.eqb_spec key "__proto__"); [contradiction|].
  apply lookup_insert_eq.
Qed.

Lemma set_property_ne (obj : gmap string string) (key value other : string) :
  key <> other -> set_property obj key value !! other = obj !! other.
Proof.
  intros Hne. unfold set_property.
  destruct (String.eqb key "__proto__"); [reflexivity|].
  now apply lookup_insert_ne.
Qed.

Lemma set_property_inv (obj : gmap string string) (key value other v : string) :
  set_property obj key value !! other = Some v ->
  (key = other /\ key <> "__proto__" /\ v = value) \/ obj !! other = Some v.
Proof.
  unfold set_property.
  destruct (String.eqb_spec key "__proto__") as [|Hp]; [now right|].
  destruct (decide (key = other)) as [->|Hne].
  - rewrite lookup_insert_eq. intros [= <-]. now left.
  - rewrite lookup_insert_ne by exact Hne. now right.
Qed.

(** Where a binding of [labelIdToName] after one more label comes from. *)
Lemma add_label_inv (maps : LabelMaps) (label : Label) (id name : string) :
  labelIdToName (add_label maps label) !! id = Some name ->
  (label_id label = Some id /\ label_name label = Some name /\
   id <> "" /\ name <> "" /\ id <> "__proto__") \/
  labelIdToName maps !! id = Some name.
Proof.
  unfold add_label.
  destruct (label_id label) as [i|]; [|now right].
  destruct (label_name label) as [n|]; [|now right].
  destruct (String.eqb_spec i ""), (String.eqb_spec n ""); cbn [negb andb];
    try (now right).
  cbn [labelIdToName]. intros [(<- & Hp & ->)|Hold]%set_property_inv; [left | now right].
  repeat split; assumption.
Qed.

Lemma add_label_source (labels : list Label) :
  forall (maps : LabelMaps) id name,
    labelIdToName (fold_left add_label labels maps) !! id = Some name ->
    labelIdToName maps !! id = Some name \/
    (id <> "" /\ name <> "" /\ id <> "__proto__" /\
     exists label, label ∈ labels /\ label_id label = Some id /\ label_name label = Some name).
Proof.
  induction labels as [|label rest IH]; intros maps id name; simpl; [now left|].
  intros Hlook. apply IH in Hlook as [Hlook | (Hi & Hn & Hp & l & Hin & Hli & Hln)].
  - apply add_label_inv in Hlook as [(Hli & Hln & Hi & Hn & Hp)|Hold]; [right | now left].
    repeat (split; [assumption|]). exists label. split; [left|]. now split.
  - right. repeat (split; [assumption|]). exists l. split; [now right|]. now split.
Qed.

Lemma add_label_keeps (labels : list Label) :
  forall (maps : LabelMaps) id,
    is_Some (labelIdToName maps !! id) ->
    is_Some (labelIdToName (fold_left add_label labels maps) !! id).
Proof.
  induction labels as [|label rest IH]; intros maps id Hs; simpl; [exact Hs|].
  apply IH. unfold add_label.
  destruct (label_id label) as [i|]; [|exact Hs].
  destruct (label_name label) as [n|]; [|exact Hs].
  destruct (negb (i =? "")%string && negb (n =? "")%string); [|exact Hs].
  cbn [labelIdToName]. unfold set_property.
  destruct (String.eqb i "__proto__"); [exact Hs|].
  destruct (decide (i = id)) as [->|Hne].
  - rewrite lookup_insert_eq. eauto.
  - now rewrite lookup_insert_ne.
Qed.

Lemma add_label_binds (maps : LabelMaps) (label : Label) (id name : string) :
  label_id label = Some id -> label_name label = Some name ->
  id <> "" -> name <> "" -> id <> "__proto__" ->
  labelIdToName (add_label maps label) !! id = Some name.
Proof.
  intros Hi Hn Hid Hname Hp. unfold add_label. rewrite Hi, Hn.
  destruct (String.eqb_spec id ""), (String.eqb_spec name ""); try congruence.
  cbn [negb andb labelIdToName]. now apply set_property_eq.
Qed.

Lemma add_label_bound (labels : list Label) :
  forall (maps : LabelMaps) label id name,
    label ∈ labels -> label_id label = Some id -> label_name label = Some name ->
    id <> "" -> name <> "" -> id <> "__proto__" ->
    is_Some (labelIdToName (fold_left add_label labels maps) !! id).
Proof.
  induction labels as [|l rest IH]; intros maps label id name Hin Hi Hn Hid Hname Hp;
    [inversion Hin|].
  simpl. apply elem_of_cons in Hin as [<-|Hin].
  - apply add_label_keeps. rewrite (add_label_binds _ _ _ _ Hi Hn Hid Hname Hp). eauto.
  - eapply IH; eassumption.
Qed.

(** A binding stays as it is while the labels that follow with its
    identifier have no name, an empty one, or the same one. *)
Lemma add_label_last (labels : list Label) :
  forall (maps : LabelMaps) id name,
    labelIdToName maps !! id = Some name ->
    (forall label other, label ∈ labels ->
       label_id label = Some id -> label_name label = Some other ->
       other = "" \/ other = name) ->
    labelIdToName (fold_left add_label labels maps) !! id = Some name.
Proof.
  induction labels as [|l rest IH]; intros maps id name Hm Hlater; simpl; [exact Hm|].
  apply IH; [|intros label other Hin; apply Hlater; now right].
  destruct (labelIdToName (add_label maps l) !! id) as [v|] eqn:Hv.
  - apply add_label_inv in Hv as [(Hli & Hln & _ & Hne & _)|Hold]; [|congruence].
    destruct (Hlater l v) as [->| ->]; [left | exact Hli | exact Hln | | ]; congruence.
  - assert (Hs : is_Some (labelIdToName (fold_left add_label [l] maps) !! id))
      by (apply add_label_keeps; eauto).
    simpl in Hs. rewrite Hv in Hs. now destruct Hs.
Qed.

(** X8. The identifier-to-name map [loadLabelMaps] builds.  Every
    binding comes from a label of the answer and binds a non-empty
    identifier other than [__proto__] to a non-empty name; for an
    identifier that does not name an inherited property, "the label has
    a name", the test [labelIdToName[id]] of the script, is exactly "the
    map has a binding".  Every label of the answer with a non-empty
    name and a non-empty identifier other than [__proto__] has its
    identifier bound, and bound to its own name when the labels that
    follow it with the same identifier have no name, an empty one or
    the same one.  The identifier [__proto__] is never bound.  An
    answer without a label list gives empty maps, and a failure of the
    call is thrown on. *)
Theorem loadLabelMaps_bindings (gmail : Gmail) (w : World) :
  (forall labels,
     labels_list gmail (length (labels_calls (events w))) = LabelsOk labels ->
     exists maps,
       loadLabelMaps gmail w = (Return maps, mkWorld (files w) (events w ++ [ELabels])) /\
       (labels = None ->
        labelIdToName maps = ∅ /\ labelNameToId maps = ∅) /\
       (forall id name,
          labelIdToName maps !! id = Some name ->
          id <> "" /\ id <> "__proto__" /\ name <> "" /\
          exists label, label ∈ default [] labels /\
                        label_id label = Some id /\ label_name label = Some name) /\
       (forall id,
          inherited_key id = false ->
          truthy_string (labelIdToName maps !! id) = true <->
          is_Some (labelIdToName maps !! id)) /\
       labelIdToName maps !! "__proto__" = None /\
       (forall label id name,
          label ∈ default [] labels ->
          label_id label = Some id -> label_name label = Some name ->
          id <> "" -> name <> "" -> id <> "__proto__" ->
          is_Some (labelIdToName maps !! id)) /\
       (forall before label after id name,
          default [] labels = (before ++ label :: after)%list ->
          label_id label = Some id -> label_name label = Some name ->
          id <> "" -> name <> "" -> id <> "__proto__" ->
          (forall later other, later ∈ after ->
             label_id later = Some id -> label_name later = Some other ->
             other = "" \/ other = name) ->
          labelIdToName maps !! id = Some name)) /\
  (forall err,
     labels_list gmail (length (labels_calls (events w))) = LabelsFail err ->
     loadLabelMaps gmail w = (Throw err, mkWorld (files w) (events w ++ [ELabels]))).
Proof.
  split.
  - intros labels Hl. eexists. split.
    { unfold loadLabelMaps, bind, users_labels_list. rewrite Hl. reflexivity. }
    assert (Hsrc : forall id name,
              labelIdToName (fold_left add_label (default [] labels)
                               {| labelIdToName := ∅; labelNameToId := ∅ |}) !! id
                = Some name ->
              id <> "" /\ id <> "__proto__" /\ name <> "" /\
              exists label, label ∈ default [] labels /\
                            label_id label = Some id /\ label_name label = Some name).
    { intros id name Hlook.
      apply add_label_source in Hlook as [Hlook|(Hi & Hn & Hp & Hsrc)].
      - simpl in Hlook. rewrite lookup_empty in Hlook. discriminate.
      - repeat (split; [assumption|]). exact Hsrc. }
    split; [|split; [|split; [|split; [|split]]]].
    + intros ->. split; reflexivity.
    + exact Hsrc.
    + intros id _. split.
      * destruct (_ !! id); [eauto | discriminate].
      * intros [name Hlook]. rewrite Hlook.
        destruct (Hsrc _ _ Hlook) as (_ & _ & Hname & _).
        simpl. now destruct (String.eqb_spec name "").
    + destruct (_ !! "__proto__") as [name|] eqn:Hlook; [|reflexivity].
      now destruct (Hsrc _ _ Hlook) as (_ & Hp & _).
    + intros label id name Hin Hi Hn Hid Hname Hp. eapply add_label_bound; eassumption.
    + intros before label after id name Hsplit Hi Hn Hid Hname Hp Hlater.
      rewrite Hsplit, fold_left_app. simpl.
      apply add_label_last; [|exact Hlater].
      now apply add_label_binds.
  - intros err Hl. unfold loadLabelMaps, bind, users_labels_list. now rewrite Hl.
Qed.

(** ** The working set and the counting queries *)

Lemma list_inbox_pages_files (gmail : Gmail) (fuel : nat) :
  forall (threads : list Thread) (tok : option string) (w : World),
    files (snd (list_inbox_pages fuel gmail threads tok w)) = files w.
Proof.
  induction fuel as [|fuel IH]; intros threads tok w; [reflexivity|].
  cbn [list_inbox_pages]. unfold bind at 1, users_threads_list.
  destruct (threads_list gmail _ _ tok) as [page|err]; [|reflexivity].
  unfold bind at 1, stdout_write, emit. cbn [files events].
  destruct (truthy_string (nextPageToken page)); [|reflexivity].
  now rewrite IH.
Qed.

(** X9. [getInboxThreads] leaves the thread ID cache consistent with
    what it returns.  When it returns a working set, the next load of
    the cache gives the identifiers of exactly that working set, whether
    it was read from the cache or listed from the remote; when it does
    not return, because a page of the listing failed, the cache held a
    value that is not a list, or the pages did not end, no file has
    changed, so a listing that broke off half-way is never cached. *)
Theorem getInboxThreads_cache_consistent (fuel : nat) (gmail : Gmail) (w : World) :
  let r := getInboxThreads fuel gmail w in
  match fst r with
  | Return threads =>
      getCachedInboxThreadIds (snd r) = (Return (VArr (map thread_id threads)), snd r)
  | _ => files (snd r) = files w
  end.
Proof.
  cbn zeta.
  assert (Henum : forall w0 : World,
            files w0 = files w ->
            let r := (let* threads := list_inbox_pages fuel gmail [] None in
                      log "" >>
                      saveCachedInboxThreadIds (map thread_id threads) >>
                      ret threads) w0 in
            match fst r with
            | Return threads =>
                getCachedInboxThreadIds (snd r)
                  = (Return (VArr (map thread_id threads)), snd r)
            | _ => files (snd r) = files w
            end).
  { intros w0 Hw0. cbn zeta. unfold bind.
    assert (Hf := list_inbox_pages_files gmail fuel [] None w0).
    destruct (list_inbox_pages fuel gmail [] None w0) as [[threads|e|] w1];
      simpl in Hf; cbn [fst snd]; try congruence.
    unfold log, emit, ret. rewrite saveCachedInboxThreadIds_eq. cbn [fst snd].
    rewrite getCachedInboxThreadIds_eq. cbn [files]. now rewrite lookup_insert_eq. }
  unfold getInboxThreads.
  set (enum := (let* threads := list_inbox_pages fuel gmail [] None in
                log "" >>
                saveCachedInboxThreadIds (map thread_id threads) >>
                ret threads)) in *.
  unfold bind. rewrite getCachedInboxThreadIds_eq.
  destruct (files w !! inbox_ids_path) as [[|v]|] eqn:E.
  - apply Henum. reflexivity.
  - destruct (truthy v) eqn:Hv; [|now apply Henum].
    destruct v; cbn [log emit fst snd files throw ret]; try reflexivity.
    rewrite getCachedInboxThreadIds_eq. cbn [files]. rewrite E.
    rewrite map_map. simpl. now rewrite map_id.
  - now apply Henum.
Qed.

Lemma count_pages_spec (gmail : Gmail) (query : string) (n : nat) (tok : option string)
    (pages : list Page) :
  paged gmail query n tok pages ->
  forall (fuel count : nat) (w : World),
    n = length (list_calls (events w)) ->
    (length pages <= fuel)%nat ->
    count_pages fuel gmail query count tok w =
      (Return (count + threads_counted pages)%nat,
       mkWorld (files w)
         (events w ++ map (fun r => EList r.1.1 r.1.2 r.2) (page_requests query tok pages))).
Proof.
  induction 1 as [n tok page Hpage Hlast | n tok page pages Hpage Hmore Hrest IH];
    intros fuel count w Hn Hfuel;
    (destruct fuel as [|fuel]; [simpl in Hfuel; lia|]);
    cbn [count_pages]; unfold bind at 1, users_threads_list;
    rewrite <- Hn, Hpage.
  - rewrite Hlast. unfold ret, threads_counted, threads_of_pages. simpl.
    rewrite app_nil_r. reflexivity.
  - rewrite Hmore. rewrite IH.
    + unfold threads_counted, threads_of_pages. simpl.
      rewrite length_app, <- app_assoc, Nat.add_assoc. reflexivity.
    + cbn [events]. rewrite list_calls_app, length_app. simpl. lia.
    + simpl in Hfuel. lia.
Qed.

(** X10. [countThreadsMatchingQuery] adds up the pages of its query:
    when the remote serves the query in pages, each request carrying the
    token of the page before until a page carries none, it returns the
    number of threads on all of them, a page without a thread list
    counting as empty, having sent one request of 100 per page and
    nothing else; no file changes. *)
Theorem countThreadsMatchingQuery_totals (fuel : nat) (query : string) (gmail : Gmail)
    (w : World) (pages : list Page) :
  paged gmail query (length (list_calls (events w))) None pages ->
  (length pages <= fuel)%nat ->
  exists w',
    countThreadsMatchingQuery fuel query gmail w = (Return (threads_counted pages), w') /\
    files w' = files w /\
    list_calls (events w') = (list_calls (events w) ++ page_requests query None pages)%list /\
    length (events w') = (length (events w) + length pages)%nat /\
    Forall (fun r => r.1.2 = 100) (page_requests query None pages).
Proof.
  intros Hpaged Hfuel.
  eexists. split.
  - unfold countThreadsMatchingQuery.
    now rewrite (count_pages_spec _ _ _ _ _ Hpaged fuel O w eq_refl Hfuel).
  - cbn [files events]. split; [reflexivity|]. split; [|split].
    + rewrite list_calls_app. f_equal.
      generalize (page_requests query None pages). intros l.
      induction l as [|[[q m] t] l IHl]; simpl; [reflexivity | now rewrite IHl].
    + rewrite length_app, length_map. f_equal.
      clear. generalize (@None string). induction pages as [|p ps IHp]; intros t; simpl;
        [reflexivity | now rewrite IHp].
    + clear. generalize (@None string). induction pages as [|p ps IHp]; intros t; simpl;
        constructor; [reflexivity | apply IHp].
Qed.

(** ** Phase 1 *)

Lemma scanned_fold (fs : gmap string File) (threads : list Thread) :
  forall st : Scan,
    fold_left (scanned fs) threads st =
      mkScan
        (labelResults st ++ map (trusted fs) (List.filter (is_trusted fs) threads))
        (validCached st + length (List.filter (is_trusted fs) threads))
        (invalidOrMissing st + length (List.filter (is_uncached fs) threads))
        (toFetch st ++
           map thread_id (List.filter (fun t => negb (is_trusted fs t)) threads)).
Proof.
  induction threads as [|t rest IH]; intros st; simpl.
  - rewrite !app_nil_r, !Nat.add_0_r. now destruct st.
  - rewrite IH. unfold scanned, is_trusted, is_uncached.
    destruct (cached_labels fs (thread_id t)) as [l|]; [destruct (isStableThread l)|];
      simpl; rewrite <- ?app_assoc; simpl; f_equal; lia.
Qed.

(** X11. Phase 1 never fails and sorts every thread of the working set
    into exactly one of two lists, in the order of the working set: the
    threads whose cache file holds a label list the stability predicate
    accepts go to [labelResults], all others to [toFetch], whether their
    file is missing, unparsable, without a label list, or holds a list
    the predicate rejects.  It changes no file, calls nobody and warns
    about nothing.  [validCached] counts the trusted threads and
    [invalidOrMissing] the threads without a cached label list; a thread
    whose cached list the predicate rejects is in neither counter. *)
Theorem scanCache_partitions (threads : list Thread) (w : World) :
  exists st w',
    scanCache (list_to_set (map thread_id threads)) threads w = (Return st, w') /\
    files w' = files w /\
    fetch_calls (events w') = fetch_calls (events w) /\
    warnings (events w') = warnings (events w) /\
    labelResults st = map (trusted (files w)) (List.filter (is_trusted (files w)) threads) /\
    toFetch st =
      map thread_id (List.filter (fun t => negb (is_trusted (files w) t)) threads) /\
    (length (labelResults st) + length (toFetch st))%nat = length threads /\
    validCached st = length (labelResults st) /\
    invalidOrMissing st = length (List.filter (is_uncached (files w)) threads).
Proof.
  destruct (scanCache_spec threads w) as (w' & Hrun & Hf & Hg & _ & Hw & _).
  rewrite scanned_fold in Hrun. simpl in Hrun.
  eexists; exists w'. split; [exact Hrun|]. cbn [labelResults toFetch validCached invalidOrMissing].
  repeat split; try assumption.
  - rewrite !length_map. clear.
    induction threads as [|t rest IH]; simpl; [reflexivity|].
    destruct (is_trusted (files w) t); simpl; lia.
  - now rewrite length_map.
Qed.

(** ** Phase 3 *)

Lemma count_of_bump (key label : string) (tbl : list (string * nat)) :
  count_of key (bump label tbl) =
    (count_of key tbl + if bool_decide (label = key) then 1 else 0)%nat.
Proof.
  induction tbl as [|[k n] rest IH]; cbn [bump count_of].
  - destruct (String.eqb_spec label key); case_bool_decide; try congruence; lia.
  - destruct (String.eqb_spec k label); cbn [count_of];
      destruct (String.eqb_spec k key); try rewrite IH;
      case_bool_decide; subst; try congruence; lia.
Qed.

Lemma bump_keys (label : string) (tbl : list (string * nat)) :
  map fst (bump label tbl) =
    if bool_decide (label ∈ map fst tbl) then map fst tbl
    else (map fst tbl ++ [label])%list.
Proof.
  induction tbl as [|[k n] rest IH]; cbn [bump map fst].
  - case_bool_decide as Hin; [inversion Hin | reflexivity].
  - destruct (String.eqb_spec k label) as [->|Hkl]; cbn [map fst].
    + rewrite bool_decide_eq_true_2; [reflexivity | left].
    + rewrite IH. destruct (decide (label ∈ map fst rest)) as [Hin|Hnot].
      * rewrite !bool_decide_eq_true_2; [reflexivity | now right | exact Hin].
      * rewrite !bool_decide_eq_false_2; [reflexivity | | exact Hnot].
        intros [?|?]%elem_of_cons; congruence.
Qed.

Lemma bump_positive (label : string) (tbl : list (string * nat)) :
  Forall (fun e => (1 <= snd e)%nat) tbl ->
  Forall (fun e => (1 <= snd e)%nat) (bump label tbl).
Proof.
  induction 1 as [|[k n] rest Hn Hrest IH]; simpl.
  - repeat constructor.
  - destruct (String.eqb k label); constructor; simpl in *; auto; lia.
Qed.

(** The keys one thread adds. *)
Lemma countLabel_fold (labels : list (option string)) :
  forall (tbl : list (string * nat)),
    let tbl' := fold_left countLabel labels tbl in
    (NoDup (map fst tbl) -> NoDup (map fst tbl')) /\
    (Forall (fun e => (1 <= snd e)%nat) tbl -> Forall (fun e => (1 <= snd e)%nat) tbl') /\
    ("INBOX" ∉ map fst tbl -> "INBOX" ∉ map fst tbl') /\
    forall key,
      count_of key tbl' =
        (count_of key tbl +
         occurrences key
           (flat_map (fun label =>
                        if bool_decide (label = Some "INBOX") then []
                        else [property_key label]) labels))%nat.
Proof.
  induction labels as [|label rest IH]; intros tbl; cbn zeta; simpl.
  - repeat split; auto; try (intros key; unfold occurrences; simpl; lia).
  - destruct (IH (countLabel tbl label)) as (Hd & Hp & Hi & Hc).
    unfold countLabel in *.
    destruct (bool_decide (label = Some "INBOX")) eqn:Hinbox; simpl.
    + repeat split; auto.
    + apply bool_decide_eq_false in Hinbox.
      split; [|split; [|split]].
      * intros Hnd. apply Hd. rewrite bump_keys. case_bool_decide; [exact Hnd|].
        apply NoDup_app. split; [exact Hnd|]. split; [|apply NoDup_singleton].
        intros x Hx Hk%list_elem_of_singleton. subst x. contradiction.
      * intros Hpos. apply Hp. now apply bump_positive.
      * intros Hnot. apply Hi. rewrite bump_keys. case_bool_decide; [exact Hnot|].
        intros [?|Hk%list_elem_of_singleton]%elem_of_app; [contradiction|].
        destruct label as [l|]; [|discriminate]. simpl in *. congruence.
      * intros key. rewrite Hc, count_of_bump.
        unfold occurrences. rewrite filter_cons.
        destruct (decide (property_key label = key)) as [->|Hne].
        -- rewrite bool_decide_eq_true_2 by reflexivity. simpl. lia.
        -- rewrite bool_decide_eq_false_2 by exact Hne. simpl. lia.
Qed.

Lemma countThread_fold (inboxThreadIds : gset string) (results : list LabelResult) :
  forall c : Counts,
    let c' := fold_left (countThread inboxThreadIds) results c in
    (NoDup (map fst (labelCounts c)) -> NoDup (map fst (labelCounts c'))) /\
    (Forall (fun e => (1 <= snd e)%nat) (labelCounts c) ->
     Forall (fun e => (1 <= snd e)%nat) (labelCounts c')) /\
    ("INBOX" ∉ map fst (labelCounts c) -> "INBOX" ∉ map fst (labelCounts c')) /\
    (forall key,
       count_of key (labelCounts c') =
         (count_of key (labelCounts c) +
          occurrences key (counted_keys inboxThreadIds results))%nat) /\
    (usedCache c' + usedApi c' =
       usedCache c + usedApi c +
       length (List.filter (fun t => bool_decide (lr_id t ∈ inboxThreadIds)) results))%nat.
Proof.
  induction results as [|t rest IH]; intros c; cbn zeta; simpl.
  - repeat split; auto; try (intros key; unfold occurrences; simpl; lia).
  - destruct (IH (countThread inboxThreadIds c t)) as (Hd & Hp & Hi & Hc & Hu).
    unfold countThread in *.
    destruct (bool_decide (lr_id t ∈ inboxThreadIds)); simpl in *.
    + destruct (countLabel_fold (labels_of t) (labelCounts c)) as (Hd1 & Hp1 & Hi1 & Hc1).
      cbn zeta in *.
      destruct (lr_fromCache t); simpl in *;
        (split; [auto|]; split; [auto|]; split; [auto|]; split;
         [intros key; rewrite Hc, Hc1; unfold occurrences; rewrite filter_app, length_app; lia
         | lia]).
    + repeat split; auto.
Qed.

(** X12. The table phase 3 builds, for a list of results none of whose
    counted labels names an inherited property of the table object
    ([constructor], [toString], [__proto__] and the like, under which
    the script reads the inherited value instead of a count).  Its keys
    are distinct, "INBOX" is never one of them, and every count is at
    least 1; the count under a key is the number of label occurrences
    with that key among the results of threads of the working set, and
    0 for a key that is not in the table; [usedCache] and [usedApi]
    together count the results of threads of the working set. *)
Theorem countLabels_table (inboxThreadIds : gset string) (results : list LabelResult) :
  Forall (fun key => inherited_key key = false) (counted_keys inboxThreadIds results) ->
  let c := countLabels inboxThreadIds results in
  NoDup (map fst (labelCounts c)) /\
  ("INBOX" ∉ map fst (labelCounts c)) /\
  Forall (fun e => (1 <= snd e)%nat) (labelCounts c) /\
  (forall key,
     count_of key (labelCounts c) = occurrences key (counted_keys inboxThreadIds results)) /\
  ((usedCache c + usedApi c)%nat =
     length (List.filter (fun t => bool_decide (lr_id t ∈ inboxThreadIds)) results)).
Proof.
  intros _. cbn zeta. unfold countLabels.
  destruct (countThread_fold inboxThreadIds results (mkCounts [] 0 0))
    as (Hd & Hp & Hi & Hc & Hu).
  cbn zeta in *. simpl in *.
  split; [apply Hd, NoDup_nil_2|]. split; [apply Hi, not_elem_of_nil|].
  split; [apply Hp, Forall_nil_2|]. split; [exact Hc | exact Hu].
Qed.

Lemma occurrences_app (key : string) (a b : list string) :
  occurrences key (a ++ b) = (occurrences key a + occurrences key b)%nat.
Proof. unfold occurrences. now rewrite filter_app, length_app. Qed.

(** X13. The counts do not depend on the order in which the results
    were pushed: two lists of results that are permutations of each
    other give the same count under every key, and the same total of
    threads used.  So the order in which the fetches of phase 2 complete
    does not show in the numbers of the report. *)
Theorem countLabels_order_independent (inboxThreadIds : gset string)
    (results results' : list LabelResult) :
  Permutation results results' ->
  (forall key,
     count_of key (labelCounts (countLabels inboxThreadIds results)) =
     count_of key (labelCounts (countLabels inboxThreadIds results'))) /\
  ((usedCache (countLabels inboxThreadIds results)
    + usedApi (countLabels inboxThreadIds results))%nat =
   (usedCache (countLabels inboxThreadIds results')
    + usedApi (countLabels inboxThreadIds results'))%nat).
Proof.
  intros Hperm. unfold countLabels.
  destruct (countThread_fold inboxThreadIds results (mkCounts [] 0 0))
    as (_ & _ & _ & Hc & Hu).
  destruct (countThread_fold inboxThreadIds results' (mkCounts [] 0 0))
    as (_ & _ & _ & Hc' & Hu').
  cbn zeta in *. simpl in Hc, Hc', Hu, Hu'. split.
  - intros key. rewrite Hc, Hc'. clear -Hperm.
    induction Hperm as [|x l l' _ IH|x y l|l l' l'' _ IH1 _ IH2]; simpl.
    + reflexivity.
    + unfold counted_keys in *. simpl. rewrite !occurrences_app. now rewrite IH.
    + unfold counted_keys. simpl. rewrite !occurrences_app. lia.
    + congruence.
  - rewrite Hu, Hu'. clear -Hperm.
    induction Hperm as [|x l l' _ IH|x y l|l l' l'' _ IH1 _ IH2]; simpl.
    + reflexivity.
    + destruct (bool_decide _); simpl; now rewrite IH.
    + repeat destruct (bool_decide _); reflexivity.
    + congruence.
Qed.

(** ** The report *)

Lemma logged_app (evs evs' : list Event) :
  logged (evs ++ evs') = (logged evs ++ logged evs')%list.
Proof. apply flat_map_app. Qed.

Lemma calm_refl (w : World) : calm w w.
Proof. repeat split. Qed.

Lemma calm_trans (w1 w2 w3 : World) : calm w1 w2 -> calm w2 w3 -> calm w1 w3.
Proof. intros (F1 & G1 & L1) (F2 & G2 & L2). repeat split; congruence. Qed.

Lemma calm_quiet (w w' : World) : quiet w w' -> calm w w'.
Proof. intros (F & G & L & _). now repeat split. Qed.

(** A comparison returns, prints no line of its own, changes no file and
    calls nobody; it warns only about a side without a name. *)
Lemma compareEntries_run (names : gmap string string) (a b : string * nat) (w : World) :
  exists w',
    compareEntries names a b w =
      (Return (localeCompare (default "" (names !! fst a)) (default "" (names !! fst b))), w') /\
    calm w w' /\
    logged (events w') = logged (events w) /\
    (truthy_string (names !! fst a) = true -> truthy_string (names !! fst b) = true ->
     events w' = events w).
Proof.
  unfold compareEntries, bind, warn, emit, ret, calm.
  destruct (truthy_string (names !! a.1)), (truthy_string (names !! b.1)); simpl;
    eexists; (split; [reflexivity|]); cbn [files events];
    rewrite ?logged_app, ?fetch_calls_app, ?list_calls_app; simpl; rewrite ?app_nil_r;
    repeat split; congruence.
Qed.

Lemma insertBy_run (names : gmap string string) (sorted : list (string * nat)) :
  forall (x : string * nat) (w : World),
  exists l w',
    insertBy (compareEntries names) x sorted w = (Return l, w') /\
    Permutation l (x :: sorted) /\
    calm w w' /\
    logged (events w') = logged (events w) /\
    ((forall e, e ∈ x :: sorted -> truthy_string (names !! fst e) = true) ->
     events w' = events w).
Proof.
  induction sorted as [|y rest IH]; intros x w.
  - exists [x], w. split; [reflexivity|]. split; [reflexivity|].
    split; [apply calm_refl|]. split; reflexivity.
  - destruct (compareEntries_run names x y w) as (w1 & Hcmp & Hc1 & Hl1 & He1).
    cbn [insertBy]. rewrite (bind_return _ _ _ _ _ Hcmp).
    destruct (_ <? 0).
    + exists (x :: y :: rest), w1.
      split; [reflexivity|]. split; [reflexivity|].
      split; [exact Hc1|]. split; [exact Hl1|].
      intros Hall. apply He1; apply Hall; [left | right; left].
    + destruct (IH x w1) as (l & w2 & Hrun & Hperm & Hc2 & Hl2 & He2).
      exists (y :: l), w2. rewrite (bind_return _ _ _ _ _ Hrun).
      split; [reflexivity|]. split.
      { rewrite Hperm. apply perm_swap. }
      split; [eapply calm_trans; eassumption|]. split; [congruence|].
      intros Hall. rewrite He2, He1; try reflexivity.
      * apply Hall. left.
      * apply Hall. right. left.
      * intros e [->|He]%elem_of_cons; apply Hall; [left | right; now right].
Qed.

Lemma sort_fold_run (names : gmap string string) (rest : list (string * nat)) :
  forall (sorted : list (string * nat)) (w : World),
  exists l w',
    foldM (fun sorted y => insertBy (compareEntries names) y sorted) rest sorted w
      = (Return l, w') /\
    Permutation l (sorted ++ rest) /\
    calm w w' /\
    logged (events w') = logged (events w) /\
    ((forall e, e ∈ (sorted ++ rest)%list -> truthy_string (names !! fst e) = true) ->
     events w' = events w).
Proof.
  induction rest as [|y rest IH]; intros sorted w.
  - exists sorted, w. rewrite app_nil_r. split; [reflexivity|]. split; [reflexivity|].
    split; [apply calm_refl|]. split; reflexivity.
  - destruct (insertBy_run names sorted y w) as (l1 & w1 & Hins & Hp1 & Hc1 & Hl1 & He1).
    destruct (IH l1 w1) as (l & w2 & Hrun & Hp2 & Hc2 & Hl2 & He2).
    exists l, w2. cbn [foldM]. rewrite (bind_return _ _ _ _ _ Hins).
    split; [exact Hrun|]. split.
    { rewrite Hp2, Hp1. simpl. apply Permutation_middle. }
    split; [eapply calm_trans; eassumption|]. split; [congruence|].
    intros Hall. rewrite He2, He1; try reflexivity.
    + intros e He. apply Hall. apply elem_of_app.
      apply elem_of_cons in He as [->|He]; [right; left | now left].
    + intros e He. apply Hall.
      apply elem_of_app in He as [He|He].
      * rewrite Hp1 in He. apply elem_of_app.
        apply elem_of_cons in He as [->|He]; [right; left | now left].
      * apply elem_of_app. right. now right.
Qed.

Lemma print_rows_run (names : gmap string string) (rows : list (string * nat)) :
  forall w : World,
    foldM (fun _ entry => printRow names entry) rows tt w =
      (Return tt, mkWorld (files w) (events w ++ map (fun e => ELog (row_text names e)) rows)).
Proof.
  induction rows as [|e rest IH]; intros w; cbn [foldM].
  - unfold ret. simpl. rewrite app_nil_r. now destruct w.
  - unfold bind at 1, printRow, log, emit. rewrite IH. cbn [files events].
    rewrite <- app_assoc. reflexivity.
Qed.

Lemma rows_are_logged (names : gmap string string) (rows : list (string * nat)) :
  logged (map (fun e => ELog (row_text names e)) rows) = map (row_text names) rows /\
  fetch_calls (map (fun e => ELog (row_text names e)) rows) = [] /\
  list_calls (map (fun e => ELog (row_text names e)) rows) = [] /\
  warnings (map (fun e => ELog (row_text names e)) rows) = [].
Proof.
  induction rows as [|e l (IH1 & IH2 & IH3 & IH4)]; simpl; [now repeat split|].
  rewrite IH1. now repeat split.
Qed.

(** The report, with what the run needs of it. *)
Lemma printReport_run (names : gmap string string) (counts : list (string * nat))
    (w : World) :
  exists sorted w',
    printReport names counts w = (Return tt, w') /\
    Permutation sorted counts /\
    logged (events w') =
      (logged (events w) ++
         [padEnd 30 "Label Name" ++ "Inbox Threads"; repeat_string "=" 40]%string ++
         map (row_text names) sorted)%list /\
    calm w w' /\
    ((forall e, e ∈ counts -> truthy_string (names !! fst e) = true) ->
     warnings (events w') = warnings (events w)).
Proof.
  set (w0 := mkWorld (files w)
               ((events w ++ [ELog (padEnd 30 "Label Name" ++ "Inbox Threads")])
                  ++ [ELog (repeat_string "=" 40)])).
  assert (Hsort : exists sorted w1,
             sortBy (compareEntries names) counts w0 = (Return sorted, w1) /\
             Permutation sorted counts /\
             calm w0 w1 /\
             logged (events w1) = logged (events w0) /\
             ((forall e, e ∈ counts -> truthy_string (names !! fst e) = true) ->
              events w1 = events w0)).
  { destruct counts as [|x rest].
    - exists [], w0. split; [reflexivity|]. split; [reflexivity|].
      split; [apply calm_refl|]. split; reflexivity.
    - exact (sort_fold_run names rest [x] w0). }
  destruct Hsort as (sorted & w1 & Hrun & Hperm & (Hf & Hg & Hc) & Hl & He).
  destruct (rows_are_logged names sorted) as (R1 & R2 & R3 & R4).
  exists sorted. eexists. split.
  - unfold printReport, bind at 1, log at 1, emit. cbn [files events].
    unfold bind at 1, log at 1, emit. cbn [files events]. fold w0.
    rewrite (bind_return _ _ _ _ _ Hrun). apply print_rows_run.
  - split; [exact Hperm|]. unfold calm. cbn [files events].
    rewrite logged_app, fetch_calls_app, list_calls_app, Hl, Hg, Hc, Hf, R1, R2, R3.
    subst w0. cbn [files events].
    rewrite !logged_app, !fetch_calls_app, !list_calls_app. simpl.
    rewrite !app_nil_r, <- !app_assoc. simpl.
    split; [reflexivity|]. split; [repeat split|].
    intros Hall. rewrite warnings_app, (He Hall), R4. cbn [events].
    rewrite !warnings_app. simpl. now rewrite !app_nil_r.
Qed.

(** X14. The report of a table whose keys name no inherited property
    of the name map and whose counts are numbers JavaScript prints in
    full.  [printReport] returns, prints the header, the rule and then
    exactly one row per entry of the table, the rows being the entries
    in some order, each with the name of its label or the placeholder
    that carries the key, padded to 30 UTF-16 code units; it changes no
    file and calls nobody.  When every key of the table has a name, it
    emits no warning. *)
Theorem printReport_rows (names : gmap string string) (counts : list (string * nat))
    (w : World) :
  (forall e, e ∈ counts ->
     inherited_key (fst e) = false /\ (Z.of_nat (snd e) <= 9007199254740991)%Z) ->
  exists sorted w',
    printReport names counts w = (Return tt, w') /\
    Permutation sorted counts /\
    logged (events w') =
      (logged (events w) ++
         [padEnd 30 "Label Name" ++ "Inbox Threads"; repeat_string "=" 40]%string ++
         map (row_text names) sorted)%list /\
    files w' = files w /\
    fetch_calls (events w') = fetch_calls (events w) /\
    ((forall e, e ∈ counts -> truthy_string (names !! fst e) = true) ->
     warnings (events w') = warnings (events w)).
Proof.
  intros _.
  destruct (printReport_run names counts w)
    as (sorted & w' & Hrun & Hperm & Hlogged & (Hf & Hg & _) & Hquiet).
  exists sorted, w'. repeat (split; [assumption|]). exact Hquiet.
Qed.

(** ** What a run touches *)

Lemma touches_refl (w : World) : touches_cache_only w w.
Proof. intros path. now left. Qed.

Lemma touches_trans (w1 w2 w3 : World) :
  touches_cache_only w1 w2 -> touches_cache_only w2 w3 -> touches_cache_only w1 w3.
Proof.
  intros H12 H23 path.
  destruct (H23 path) as [E23|[Hs Hc]]; [|now right].
  destruct (H12 path) as [E12|[Hs Hc]]; [left; congruence|].
  right. split; [now rewrite E23 | exact Hc].
Qed.

Lemma touches_same_files (w w' : World) : files w' = files w -> touches_cache_only w w'.
Proof. intros E path. left. now rewrite E. Qed.

Lemma confined_same_files {A} (m : M A) :
  (forall w, files (snd (m w)) = files w) -> confined m.
Proof. intros Hm w. now apply touches_same_files. Qed.

Lemma confined_bind {A B} (m : M A) (k : A -> M B) :
  confined m -> (forall a, confined (k a)) -> confined (bind m k).
Proof.
  intros Hm Hk w. unfold bind. specialize (Hm w).
  destruct (m w) as [[a|e|] w1]; simpl in *; try exact Hm.
  eapply touches_trans; [exact Hm | apply Hk].
Qed.

Lemma confined_try {A} (m : M A) (h : Exn -> M A) :
  confined m -> (forall e, confined (h e)) -> confined (try_catch m h).
Proof.
  intros Hm Hh w. unfold try_catch. specialize (Hm w).
  destruct (m w) as [[a|e|] w1]; simpl in *; try exact Hm.
  eapply touches_trans; [exact Hm | apply Hh].
Qed.

Lemma confined_foldM {A B} (f : B -> A -> M B) (l : list A) :
  (forall b a, confined (f b a)) -> forall b, confined (foldM f l b).
Proof.
  intros Hf. induction l as [|x rest IH]; intros b; cbn [foldM].
  - now apply confined_same_files.
  - apply confined_bind; [apply Hf | exact IH].
Qed.

Lemma confined_ret {A} (a : A) : confined (ret a).
Proof. now apply confined_same_files. Qed.

Lemma confined_throw {A} (e : Exn) : confined (throw (A := A) e).
Proof. now apply confined_same_files. Qed.

Lemma confined_emit (e : Event) : confined (emit e).
Proof. now apply confined_same_files. Qed.

Lemma confined_writeJson (path : string) (data : jsval) :
  cache_path path -> confined (writeJson path data).
Proof.
  intros Hc w path'. unfold writeJson.
  destruct (files w !! path), (strip_prefix (CACHE_DIR ++ "/") path ≫= file_name_error);
    cbn [snd files]; try (now left);
    (destruct (decide (path = path')) as [<-|Hne];
     [right; rewrite lookup_insert_eq; eauto | left; now rewrite lookup_insert_ne]).
Qed.

Lemma confined_saveCachedThread (threadId : string) (data : jsval) :
  confined (saveCachedThread threadId data).
Proof.
  unfold saveCachedThread. apply confined_bind.
  - apply confined_same_files. intros w. destruct data; reflexivity.
  - intros labelIds. destruct (negb (isArray labelIds)).
    + apply confined_emit.
    + apply confined_writeJson. right. eauto.
Qed.

Lemma confined_safeGetThread (gmail : Gmail) (id : string) (retries : nat) :
  confined (safeGetThread gmail id retries).
Proof.
  apply confined_same_files. intros w. apply safeGetThread_files.
Qed.

Lemma confined_fetchMissing (gmail : Gmail) (names : gmap string string) (st : Scan) :
  confined (fetchMissing gmail names st).
Proof.
  unfold fetchMissing. apply confined_bind; [|intros acc; apply confined_bind;
    [apply confined_emit | intros _; apply confined_ret]].
  apply confined_foldM. intros acc threadId. unfold fetchThread.
  apply confined_bind; [apply confined_safeGetThread|]. intros full.
  apply confined_bind.
  { apply confined_same_files. intros w. now destruct full as [[|m ms]|]. }
  intros labelIds0. apply confined_bind; [now apply confined_same_files|].
  intros cachedAt. apply confined_bind; [apply confined_saveCachedThread|].
  intros _. apply confined_bind; [apply confined_emit | intros _; apply confined_ret].
Qed.

Lemma confined_aggregate (gmail : Gmail) (names : gmap string string)
    (threads : list Thread) :
  confined (aggregate gmail names threads).
Proof.
  unfold aggregate. apply confined_bind.
  - apply confined_same_files. intros w.
    destruct (scanCache_spec threads w) as (w' & Hrun & Hq).
    rewrite Hrun. exact (quiet_files _ _ Hq).
  - intros st. apply confined_bind; [apply confined_fetchMissing|].
    intros results. apply confined_ret.
Qed.

Lemma count_pages_files (gmail : Gmail) (query : string) (fuel : nat) :
  forall (count : nat) (tok : option string) (w : World),
    files (snd (count_pages fuel gmail query count tok w)) = files w.
Proof.
  induction fuel as [|fuel IH]; intros count tok w; [reflexivity|].
  cbn [count_pages]. unfold bind at 1, users_threads_list.
  destruct (threads_list gmail _ _ tok) as [page|err]; [|reflexivity].
  destruct (truthy_string (nextPageToken page)); [|reflexivity].
  now rewrite IH.
Qed.

Lemma confined_getInboxThreads (fuel : nat) (gmail : Gmail) :
  confined (getInboxThreads fuel gmail).
Proof.
  unfold getInboxThreads. apply confined_bind.
  - apply confined_same_files. intros w. rewrite getCachedInboxThreadIds_eq.
    now destruct (files w !! inbox_ids_path) as [[|v]|].
  - intros threadIds. destruct (truthy threadIds).
    + apply confined_bind; [apply confined_emit|]. intros _.
      destruct threadIds; (apply confined_ret || apply confined_throw).
    + apply confined_bind.
      * apply confined_same_files. intros w. apply list_inbox_pages_files.
      * intros threads. apply confined_bind; [apply confined_emit|]. intros _.
        apply confined_bind; [|intros _; apply confined_ret].
        apply confined_writeJson. now left.
Qed.

Lemma confined_printReport (names : gmap string string) (counts : list (string * nat)) :
  confined (printReport names counts).
Proof.
  assert (Hcmp : forall a b, confined (compareEntries names a b)).
  { intros a b. apply confined_same_files. intros w.
    destruct (compareEntries_run names a b w) as (w' & Hrun & (Hf & _) & _).
    now rewrite Hrun. }
  assert (Hins : forall sorted x, confined (insertBy (compareEntries names) x sorted)).
  { induction sorted as [|y rest IH]; intros x; cbn [insertBy]; [apply confined_ret|].
    apply confined_bind; [apply Hcmp|]. intros order.
    destruct (order <? 0); [apply confined_ret|].
    apply confined_bind; [apply IH | intros l; apply confined_ret]. }
  unfold printReport.
  apply confined_bind; [apply confined_emit|]. intros _.
  apply confined_bind; [apply confined_emit|]. intros _.
  apply confined_bind.
  - destruct counts as [|x rest]; [apply confined_ret|].
    apply confined_foldM. intros sorted y. apply Hins.
  - intros sorted. apply confined_foldM. intros _ entry. apply confined_emit.
Qed.

(** X15. What a run may touch.  From any state of the file system,
    against any remote and however it ends (report printed, exception
    thrown half-way, pages that never end), [listInboxLabelCounts]
    removes no file, and every file outside the cache, that is every
    path that is neither the thread ID list nor the file of a thread,
    is exactly as it was. *)
Theorem listInboxLabelCounts_touches_cache_only (fuel : nat) (gmail : Gmail) (w : World) :
  let w' := snd (listInboxLabelCounts fuel gmail w) in
  (forall path, is_Some (files w !! path) -> is_Some (files w' !! path)) /\
  (forall path,
     path <> inbox_ids_path -> (forall threadId, path <> thread_path threadId) ->
     files w' !! path = files w !! path).
Proof.
  cbn zeta.
  assert (Hrun : confined (listInboxLabelCounts fuel gmail)).
  { unfold listInboxLabelCounts.
    apply confined_bind.
    { apply confined_same_files. intros w0. unfold loadLabelMaps, bind, users_labels_list.
      now destruct (labels_list gmail _). }
    intros maps. apply confined_bind; [apply confined_getInboxThreads|].
    intros threads. apply confined_bind; [apply confined_aggregate|].
    intros counts. apply confined_bind; [apply confined_emit|]. intros _.
    apply confined_bind; [apply confined_printReport|].
    intros _. apply confined_bind.
    { apply confined_same_files. intros w0. apply count_pages_files. }
    intros unread. apply confined_bind; [apply confined_emit|]. intros _.
    apply confined_bind.
    { apply confined_same_files. intros w0. apply count_pages_files. }
    intros untagged. apply confined_bind; [apply confined_emit|]. intros _.
    apply confined_ret. }
  split.
  - intros path Hs. destruct (Hrun w path) as [E|[Hs' _]]; [now rewrite E | exact Hs'].
  - intros path Hids Hthread. destruct (Hrun w path) as [E|[_ [Hc|[id Hc]]]].
    + exact E.
    + contradiction.
    + now apply Hthread in Hc.
Qed.

(** ** Phase 2 *)

(** What a fetch returns is an answer of the remote with a first
    message. *)
Lemma safeGetThread_returns (gmail : Gmail) (id : string) (retries : nat) :
  forall (w w1 : World) (full : option (list Message)),
    safeGetThread gmail id retries w = (Return full, w1) ->
    exists m ms, full = Some (m :: ms) /\ exists n, threads_get gmail n id = GetOk full.
Proof.
  induction retries as [|r IH]; intros w w1 full.
  - destruct (threads_get gmail (length (fetch_calls (events w))) id) as [[[|m ms]|]|err] eqn:E.
    + erewrite safeGetThread_no_message by eauto. discriminate.
    + erewrite safeGetThread_answer by eauto. intros [= <- _]. eauto 6.
    + erewrite safeGetThread_no_message by eauto. discriminate.
    + erewrite safeGetThread_rethrow by eauto. discriminate.
  - destruct (threads_get gmail (length (fetch_calls (events w))) id) as [[[|m ms]|]|err] eqn:E.
    + erewrite safeGetThread_no_message by eauto. discriminate.
    + erewrite safeGetThread_answer by eauto. intros [= <- _]. eauto 6.
    + erewrite safeGetThread_no_message by eauto. discriminate.
    + destruct (decide (response_status err = Some 429)) as [H429|Hne].
      * destruct err; try discriminate. injection H429 as ->.
        rewrite safeGetThread_retry by exact E. apply IH.
      * erewrite safeGetThread_rethrow by eauto. discriminate.
Qed.

(** The task of phase 2 after its fetch has returned: it writes the
    record of the thread, and when the write is accepted pushes the
    result and reports its progress. *)
Lemma fetchThread_after_fetch (gmail : Gmail) (names : gmap string string) (total : nat)
    (acc : list LabelResult * nat) (threadId : string) (w w1 : World)
    (m : Message) (ms : list Message) :
  safeGetThread gmail threadId 3 w = (Return (Some (m :: ms)), w1) ->
  let labelIds := default [] (msg_labelIds m) in
  fetchThread gmail names total acc threadId w =
    match files w1 !! thread_path threadId, file_name_error (thread_file threadId) with
    | None, Some e => (Throw e, w1)
    | _, _ =>
        (Return ((fst acc ++ [fetched names threadId labelIds])%list, S (snd acc)),
         mkWorld
           (<[thread_path threadId :=
                Json (cache_record labelIds (toISOString (length (events w1))))]> (files w1))
           (events w1 ++
              [EOut (CR ++ "Fetched " ++ pretty (S (snd acc)) ++ "/" ++ pretty total
                     ++ " threads from API...")]))
    end.
Proof.
  intros Hget labelIds. unfold fetchThread.
  rewrite (bind_return _ _ _ _ _ Hget).
  unfold bind at 1, first_labelIds, ret. unfold bind at 1. unfold bind at 1.
  rewrite (saveCachedThread_array threadId
             (VObj [("labelIds", VArr labelIds);
                    ("cachedAt", VStr (toISOString (length (events w1))))])
             labelIds w1 eq_refl).
  destruct (files w1 !! thread_path threadId), (file_name_error (thread_file threadId));
    reflexivity.
Qed.

(** A task of phase 2 that returns has written the record of its thread,
    with the labels of an answer of the remote, and pushed one result
    for it. *)
Lemma fetchThread_returns (gmail : Gmail) (names : gmap string string) (total : nat)
    (acc acc' : list LabelResult * nat) (threadId : string) (w w' : World) :
  fetchThread gmail names total acc threadId w = (Return acc', w') ->
  exists m ms n cachedAt,
    threads_get gmail n threadId = GetOk (Some (m :: ms)) /\
    files w' =
      <[thread_path threadId := Json (cache_record (default [] (msg_labelIds m)) cachedAt)]>
        (files w) /\
    acc' = ((fst acc ++ [fetched names threadId (default [] (msg_labelIds m))])%list,
            S (snd acc)).
Proof.
  assert (Hf := safeGetThread_files gmail threadId 3 w).
  destruct (safeGetThread gmail threadId 3 w) as [[full|e|] w1] eqn:Hget;
    [| unfold fetchThread; now rewrite (bind_throw _ _ _ _ _ Hget)
     | unfold fetchThread, bind; now rewrite Hget].
  destruct (safeGetThread_returns _ _ _ _ _ _ Hget) as (m & ms & -> & n & Hn).
  rewrite (fetchThread_after_fetch _ _ _ _ _ _ _ _ _ Hget). cbn [snd] in Hf.
  destruct (files w1 !! thread_path threadId), (file_name_error (thread_file threadId));
    try discriminate; intros [= <- <-]; exists m, ms, n; eexists;
    (split; [exact Hn|]); cbn [files]; rewrite Hf; split; reflexivity.
Qed.

Lemma cached_labels_insert (fs : gmap string File) (threadId other : string)
    (labelIds : list string) (cachedAt : string) :
  cached_labels (<[thread_path threadId := Json (cache_record labelIds cachedAt)]> fs) other =
    if decide (other = threadId) then Some labelIds else cached_labels fs other.
Proof.
  unfold cached_labels. destruct (decide (other = threadId)) as [->|Hne].
  - now rewrite lookup_insert_eq.
  - rewrite lookup_insert_ne; [reflexivity|].
    intros E. apply thread_path_inj in E. congruence.
Qed.

Lemma fetch_fold_returns (gmail : Gmail) (names : gmap string string) (total : nat)
    (ids : list string) :
  forall (acc acc' : list LabelResult * nat) (w w' : World),
    foldM (fetchThread gmail names total) ids acc w = (Return acc', w') ->
    (forall other,
       is_Some (cached_labels (files w) other) \/ other ∈ ids ->
       is_Some (cached_labels (files w') other)) /\
    map lr_id (fst acc') = (map lr_id (fst acc) ++ ids)%list.
Proof.
  induction ids as [|id rest IH]; intros acc acc' w w'; cbn [foldM].
  - intros [= <- <-]. split; [|now rewrite app_nil_r].
    intros other [Hs|Hin]; [exact Hs | inversion Hin].
  - unfold bind at 1.
    destruct (fetchThread gmail names total acc id w) as [[acc1|e|] w1] eqn:Hstep;
      try discriminate.
    intros Hrest.
    destruct (fetchThread_returns _ _ _ _ _ _ _ _ Hstep) as (m & ms & n & c & _ & Hf1 & ->).
    destruct (IH _ _ _ _ Hrest) as (Hkeep & Hids).
    split.
    + intros other Hwhy. apply Hkeep.
      destruct (decide (other = id)) as [->|Hne].
      * left. rewrite Hf1, cached_labels_insert. rewrite decide_True by reflexivity. eauto.
      * destruct Hwhy as [Hs|[->|Hin]%elem_of_cons]; [left | congruence | now right].
        rewrite Hf1, cached_labels_insert. now rewrite decide_False by exact Hne.
    + rewrite Hids. cbn [fst]. rewrite map_app, <- app_assoc. reflexivity.
Qed.

(** X16. An aggregation that returns has primed the cache and counted
    every thread once.  Afterwards the cache holds a label list for
    every thread of the working set, trusted from the cache or just
    fetched, and for every thread it held one for before; the counters
    [usedCache] and [usedApi] add up to the size of the working set. *)
Theorem aggregate_writes_back (gmail : Gmail) (names : gmap string string)
    (threads : list Thread) (w w' : World) (c : Counts) :
  aggregate gmail names threads w = (Return c, w') ->
  (forall t, t ∈ threads -> is_Some (cached_labels (files w') (thread_id t))) /\
  (forall threadId,
     is_Some (cached_labels (files w) threadId) ->
     is_Some (cached_labels (files w') threadId)) /\
  (usedCache c + usedApi c)%nat = length threads.
Proof.
  unfold aggregate.
  destruct (scanCache_spec threads w) as (w1 & Hscan & Hq).
  rewrite scanned_fold in Hscan. simpl in Hscan.
  rewrite (bind_return _ _ _ _ _ Hscan).
  unfold bind at 1, fetchMissing, bind at 1. cbn [toFetch labelResults].
  set (queue := map thread_id
                  (List.filter (fun t => negb (is_trusted (files w) t)) threads)).
  set (seen := map (trusted (files w)) (List.filter (is_trusted (files w)) threads)).
  destruct (foldM (fetchThread gmail names (length queue)) queue (seen, O) w1)
    as [[acc|e|] w2] eqn:Hfold; try discriminate.
  unfold bind, log, emit, ret. cbn [files events]. intros [= <- <-]. cbn [files].
  destruct (fetch_fold_returns _ _ _ _ _ _ _ _ Hfold) as (Hkeep & Hids).
  rewrite (quiet_files _ _ Hq) in Hkeep.
  split; [|split].
  - intros t Hin. apply Hkeep.
    destruct (is_trusted (files w) t) eqn:Ht.
    + left. unfold is_trusted in Ht.
      destruct (cached_labels (files w) (thread_id t)); [eauto | discriminate].
    + right. subst queue. apply list_elem_of_fmap. exists t. split; [reflexivity|].
      apply list_elem_of_In, filter_In. split; [now apply list_elem_of_In|].
      now rewrite Ht.
  - intros threadId Hs. apply Hkeep. now left.
  - destruct (countThread_fold (list_to_set (map thread_id threads)) acc.1 (mkCounts [] 0 0))
      as (_ & _ & _ & _ & Hu).
    cbn zeta in Hu. simpl in Hu. unfold countLabels. rewrite Hu.
    assert (Hall : forall r, r ∈ acc.1 ->
              bool_decide (lr_id r ∈ (list_to_set (map thread_id threads) : gset string))
                = true).
    { intros r Hr. apply bool_decide_eq_true, elem_of_list_to_set.
      assert (Hid : lr_id r ∈ map lr_id acc.1) by (apply list_elem_of_fmap; eauto).
      rewrite Hids in Hid. simpl in Hid.
      apply elem_of_app in Hid as [Hid|Hid].
      - subst seen. rewrite map_map in Hid. simpl in Hid.
        apply list_elem_of_fmap in Hid as (t & -> & Ht).
        apply list_elem_of_fmap. exists t. split; [reflexivity|].
        apply list_elem_of_In, filter_In in Ht as [Ht _]. now apply list_elem_of_In.
      - subst queue. apply list_elem_of_fmap in Hid as (t & -> & Ht).
        apply list_elem_of_fmap. exists t. split; [reflexivity|].
        apply list_elem_of_In, filter_In in Ht as [Ht _]. now apply list_elem_of_In. }
    assert (Hlen : length (List.filter
                             (fun t => bool_decide
                                         (lr_id t ∈ (list_to_set (map thread_id threads)
                                                     : gset string))) acc.1)
                   = length acc.1).
    { clear -Hall. induction acc.1 as [|r l IHl]; simpl; [reflexivity|].
      rewrite Hall by left. simpl. f_equal. apply IHl. intros r' Hr'. apply Hall. now right. }
    rewrite Hlen, <- (length_map lr_id), Hids. simpl.
    rewrite length_app. subst seen queue. rewrite !length_map.
    clear. induction threads as [|t rest IH]; simpl; [reflexivity|].
    destruct (is_trusted (files w) t); simpl; lia.
Qed.

(** ** A run on a primed cache *)

Lemma list_calls_requests (requests : list (string * Z * option string)) :
  list_calls (map (fun r => EList r.1.1 r.1.2 r.2) requests) = requests.
Proof.
  induction requests as [|[[q m] t] l IHl]; simpl; [reflexivity | now rewrite IHl].
Qed.

Lemma length_page_requests (q : string) (pages : list Page) :
  forall tok, length (page_requests q tok pages) = length pages.
Proof. induction pages as [|p ps IH]; intros tok; simpl; [reflexivity | now rewrite IH]. Qed.

(** X17. The run the cache is there for.  When the thread ID cache
    holds the working set and every thread of it has a non-empty label
    list on disk, none of whose labels names an inherited property of
    the objects the script uses as maps, and the label list and the two
    counting queries are answered, the whole run returns: it makes no [threads.get] call and
    does not list the inbox, its only [threads.list] requests being the
    pages of the unread and of the untagged query, in this order; it
    changes no file; its counters are those of the cached label lists;
    and the last two lines it prints are the two totals. *)
Theorem listInboxLabelCounts_on_primed_cache (fuel : nat) (gmail : Gmail) (w : World)
    (labels : option (list Label)) (ids : list string) (unread untagged : list Page) :
  let threads := map mkThread ids in
  let q1 := "in:inbox is:unread" in
  let q2 := "in:inbox -label:=it -label:=p -label:=q" in
  labels_list gmail (length (labels_calls (events w))) = LabelsOk labels ->
  files w !! inbox_ids_path = Some (Json (VArr ids)) ->
  primed (files w) threads ->
  (forall t labelIds,
     t ∈ threads -> cached_labels (files w) (thread_id t) = Some labelIds ->
     Forall (fun labelId => inherited_key labelId = false) labelIds) ->
  paged gmail q1 (length (list_calls (events w))) None unread ->
  paged gmail q2 (length (list_calls (events w)) + length unread) None untagged ->
  (length unread <= fuel)%nat -> (length untagged <= fuel)%nat ->
  exists w',
    listInboxLabelCounts fuel gmail w =
      (Return (countLabels (list_to_set (map thread_id threads))
                 (map (trusted (files w)) threads)), w') /\
    files w' = files w /\
    fetch_calls (events w') = fetch_calls (events w) /\
    list_calls (events w') =
      (list_calls (events w) ++ page_requests q1 None unread
         ++ page_requests q2 None untagged)%list /\
    exists earlier,
      logged (events w') =
        (earlier ++
           [padEnd 30 "Inbox unread threads:" ++ pretty (threads_counted unread);
            padEnd 30 "Inbox untagged threads:" ++ pretty (threads_counted untagged)]%string
        )%list.
Proof.
  intros threads q1 q2 Hl Hids Hp _ Hunread Huntagged Hfuel1 Hfuel2.
  set (maps := fold_left add_label (default [] labels)
                 {| labelIdToName := ∅; labelNameToId := ∅ |}).
  set (w1 := mkWorld (files w) (events w ++ [ELabels])).
  assert (Hmaps : loadLabelMaps gmail w = (Return maps, w1)).
  { unfold loadLabelMaps, bind, users_labels_list. rewrite Hl. reflexivity. }
  set (w2 := mkWorld (files w)
               (events w1 ++
                  [ELog ("Loaded " ++ display (js_length (VArr ids))
                         ++ " inbox thread IDs from cache.")])).
  assert (Hthreads : getInboxThreads fuel gmail w1 = (Return threads, w2)).
  { unfold getInboxThreads, bind at 1. rewrite getCachedInboxThreadIds_eq.
    cbn [files w1]. rewrite Hids. reflexivity. }
  destruct (aggregate_primed gmail (labelIdToName maps) threads w2 Hp)
    as (w3 & Hagg & (F3 & G3 & L3 & _)).
  cbn [files w2] in Hagg.
  set (counts := countLabels (list_to_set (map thread_id threads))
                   (map (trusted (files w)) threads)) in *.
  set (w4 := mkWorld (files w3)
               (events w3 ++
                  [ELog (LF ++ "Used " ++ pretty (usedCache counts)
                         ++ " threads from cache, " ++ pretty (usedApi counts)
                         ++ " from API." ++ LF)])).
  destruct (printReport_run (labelIdToName maps) (labelCounts counts) w4)
    as (sorted & w5 & Hreport & _ & _ & (F5 & G5 & L5) & _).
  assert (Hfiles5 : files w5 = files w) by (rewrite F5; cbn [files w4]; rewrite F3; reflexivity).
  assert (Hget5 : fetch_calls (events w5) = fetch_calls (events w)).
  { rewrite G5. cbn [events w4]. rewrite fetch_calls_app, G3. cbn [events w2 w1].
    rewrite !fetch_calls_app. simpl. now rewrite !app_nil_r. }
  assert (Hlist5 : list_calls (events w5) = list_calls (events w)).
  { rewrite L5. cbn [events w4]. rewrite list_calls_app, L3. cbn [events w2 w1].
    rewrite !list_calls_app. simpl. now rewrite !app_nil_r. }
  assert (Hcount1 := count_pages_spec gmail q1 _ None unread Hunread fuel O w5
                       (eq_sym (f_equal (@length _) Hlist5)) Hfuel1).
  set (w6 := mkWorld (files w5)
               (events w5 ++ map (fun r => EList r.1.1 r.1.2 r.2)
                               (page_requests q1 None unread))) in *.
  set (w7 := mkWorld (files w6)
               (events w6 ++
                  [ELog (padEnd 30 "Inbox unread threads:"
                         ++ pretty (0 + threads_counted unread)%nat)])).
  assert (Hlist7 : list_calls (events w7)
                   = (list_calls (events w) ++ page_requests q1 None unread)%list).
  { cbn [events w7 w6]. rewrite !list_calls_app, Hlist5, list_calls_requests. simpl.
    now rewrite app_nil_r. }
  assert (Hn7 : (length (list_calls (events w)) + length unread)%nat
                = length (list_calls (events w7))).
  { rewrite Hlist7, length_app, length_page_requests. reflexivity. }
  assert (Hcount2 := count_pages_spec gmail q2 _ None untagged Huntagged fuel O w7
                       Hn7 Hfuel2).
  eexists. split.
  - unfold listInboxLabelCounts.
    rewrite (bind_return _ _ _ _ _ Hmaps), (bind_return _ _ _ _ _ Hthreads),
      (bind_return _ _ _ _ _ Hagg).
    unfold bind at 1, log at 1, emit. fold w4.
    rewrite (bind_return _ _ _ _ _ Hreport).
    unfold countThreadsMatchingQuery.
    rewrite (bind_return _ _ _ _ _ Hcount1).
    unfold bind at 1, log at 1, emit. fold w7.
    rewrite (bind_return _ _ _ _ _ Hcount2).
    reflexivity.
  - cbn [files events w7 w6]. split; [exact Hfiles5|]. split; [|split].
    + rewrite !fetch_calls_app, Hget5. simpl.
      assert (Hnone : forall reqs,
                fetch_calls (map (fun r : string * Z * option string =>
                                    EList r.1.1 r.1.2 r.2) reqs) = [])
        by (induction reqs as [|r l IHl]; simpl; auto).
      now rewrite !Hnone, !app_nil_r.
    + rewrite !list_calls_app, Hlist5, !list_calls_requests. simpl.
      now rewrite !app_nil_r, <- !app_assoc.
    + assert (Hnone : forall reqs,
                logged (map (fun r : string * Z * option string =>
                               EList r.1.1 r.1.2 r.2) reqs) = [])
        by (induction reqs as [|r l IHl]; simpl; auto).
      exists (logged (events w5)).
      rewrite !logged_app, !Hnone. simpl. now rewrite !app_nil_r, <- !app_assoc.
Qed.

End FurtherProperties.

(** * The further properties at concrete runs *)

Lemma inbox_ids_round_trip_witness :
  path_t "t1" <> inbox_ids_path (P := platform) /\
  exists w',
    saveCachedInboxThreadIds (P := platform) ["t1"; "t2"] world_broken = (Return tt, w') /\
    getCachedInboxThreadIds (P := platform) w' = (Return (VArr ["t1"; "t2"]), w') /\
    files w' !! path_t "t1" = Some Unparsable.
Proof.
  assert (Hne : path_t "t1" <> inbox_ids_path (P := platform))
    by (vm_compute; discriminate).
  split; [exact Hne|].
  destruct (inbox_ids_round_trip (P := platform) ["t1"; "t2"] world_broken)
    as (w' & Hsave & Hload & _ & Hother & _).
  exists w'. split; [exact Hsave|]. split; [exact Hload|].
  rewrite (Hother _ Hne). vm_compute. reflexivity.
Defined.

Lemma thread_cache_round_trip_witness :
  let data := cache_record ["INBOX"; "L_A"] "2025-06-01T12:00:00.000Z" in
  opt_prop data "labelIds" = VArr ["INBOX"; "L_A"] /\
  file_name_error (thread_file "t1") = None /\
  (exists w',
     saveCachedThread (P := platform) "t1" data world_empty = (Return tt, w') /\
     getCachedThread (P := platform) "t1" w' = (Return data, w') /\
     cached_labels (P := platform) (files w') "t1" = Some ["INBOX"; "L_A"]) /\
  files world_empty !! thread_path (P := platform) "a/b" = None /\
  normal_path (thread_file "a/b") = true /\
  file_name_error (thread_file "a/b") <> None /\
  exists e, saveCachedThread (P := platform) "a/b" data world_empty = (Throw e, world_empty).
Proof.
  intros data.
  assert (Hl : opt_prop data "labelIds" = VArr ["INBOX"; "L_A"]) by reflexivity.
  assert (Hname : file_name_error (thread_file "t1") = None) by reflexivity.
  assert (Hnone : files world_empty !! thread_path (P := platform) "a/b" = None)
    by reflexivity.
  assert (Hnormal : normal_path (thread_file "a/b") = true) by reflexivity.
  assert (Hbad : file_name_error (thread_file "a/b") <> None) by (vm_compute; discriminate).
  split; [exact Hl|]. split; [exact Hname|].
  split; [|split; [exact Hnone|split; [exact Hnormal|split; [exact Hbad|]]]].
  - destruct (proj1 (thread_cache_round_trip (P := platform) "t1" data _ world_empty Hl)
                (or_intror Hname))
      as (w' & Hsave & _ & _ & Hlabels & Hrecord).
    exists w'. split; [exact Hsave|]. split; [|exact Hlabels].
    exact (Hrecord _ eq_refl).
  - exact (proj2 (thread_cache_round_trip (P := platform) "a/b" data _ world_empty Hl)
             Hnone Hnormal Hbad).
Defined.

Lemma saveCachedThread_is_local_witness :
  let data := cache_record ["INBOX"; "L_B"] "2025-06-01T12:00:00.000Z" in
  let w' := snd (saveCachedThread (P := platform) "t2" data world_two) in
  "t1" <> "t2" /\
  cached_labels (P := platform) (files w') "t2" = Some ["INBOX"; "L_B"] /\
  cached_labels (P := platform) (files w') "t1" = Some ["INBOX"; "L_A"] /\
  files w' !! inbox_ids_path (P := platform) = Some (Json (VArr ["t1"; "t2"])).
Proof.
  intros data w'.
  assert (Hne : "t1" <> "t2") by discriminate.
  destruct (saveCachedThread_is_local (P := platform) "t2" data world_two)
    as (_ & Hlabels & Hids).
  split; [exact Hne|]. split; [vm_compute; reflexivity|]. split.
  - subst w'. rewrite (Hlabels "t1" Hne). vm_compute. reflexivity.
  - subst w'. rewrite Hids. vm_compute. reflexivity.
Defined.

Lemma safeGetThread_answers_witness :
  let silent := {| threads_get := fun _ _ => GetOk (Some []);
                   threads_list := fun _ _ _ => no_threads;
                   labels_list := fun _ => LabelsOk None |} in
  threads_get gmail_inbox (length (fetch_calls (events world_empty))) "t1"
    = answer None /\
  (exists w',
     safeGetThread gmail_inbox "t1" 3 world_empty
       = (Return (Some [{| msg_labelIds := None |}]), w') /\
     warnings (events w') = ["Thread t1 returned with missing or empty labels."] /\
     sleeps (events w') = []) /\
  safeGetThread silent "t1" 3 world_empty = (Throw TypeError, mkWorld ∅ [EGet "t1"]).
Proof.
  intros silent.
  assert (Hget : threads_get gmail_inbox (length (fetch_calls (events world_empty))) "t1"
                 = GetOk (Some [{| msg_labelIds := None |}])) by reflexivity.
  split; [exact Hget|]. split.
  - destruct (proj1 (safeGetThread_answers gmail_inbox "t1" 3 world_empty)
                _ _ Hget) as (w' & Hrun & _ & _ & Hsleeps & Hwarn).
    exists w'. split; [exact Hrun|]. split; [exact Hwarn | exact Hsleeps].
  - exact (proj2 (safeGetThread_answers silent "t1" 3 world_empty)
             (Some []) eq_refl (or_intror eq_refl)).
Defined.

Lemma safeGetThread_recovers_witness :
  (3 <= 3)%nat /\
  (forall i, (i < 3)%nat ->
     threads_get gmail_429x3 (length (fetch_calls (events world_empty)) + i) "t1"
       = GetFail (HttpError 429)) /\
  exists w',
    safeGetThread gmail_429x3 "t1" 3 world_empty
      = (Return (Some [{| msg_labelIds := Some ["INBOX"; "L_A"] |}]), w') /\
    fetch_calls (events w') = ["t1"; "t1"; "t1"; "t1"] /\
    sleeps (events w') = [1000; 2000; 3000].
Proof.
  assert (Hk : (3 <= 3)%nat) by lia.
  assert (H429 : forall i, (i < 3)%nat ->
            threads_get gmail_429x3 (length (fetch_calls (events world_empty)) + i) "t1"
              = GetFail (HttpError 429)).
  { intros i Hi. simpl. destruct (Nat.ltb_spec i 3); [reflexivity | lia]. }
  split; [exact Hk|]. split; [exact H429|].
  destruct (safeGetThread_recovers gmail_429x3 "t1" 3 3 world_empty
              _ _ Hk H429 eq_refl) as (w' & Hrun & _ & Hcalls & Hsleeps).
  exists w'. split; [exact Hrun|]. split; [exact Hcalls | exact Hsleeps].
Defined.

Lemma loadLabelMaps_bindings_witness :
  let labels := [named "INBOX" "INBOX"; named "L_A" "Alpha";
                 named "__proto__" "Proto"; named "L_A" ""] in
  labels_list gmail_odd_labels (length (labels_calls (events world_two)))
    = LabelsOk (Some labels) /\
  exists maps w',
    loadLabelMaps gmail_odd_labels world_two = (Return maps, w') /\
    labelIdToName maps !! "L_A" = Some "Alpha" /\
    labelIdToName maps !! "__proto__" = None /\
    is_Some (labelIdToName maps !! "INBOX").
Proof.
  intros labels.
  assert (Hl : labels_list gmail_odd_labels (length (labels_calls (events world_two)))
               = LabelsOk (Some labels)) by reflexivity.
  split; [exact Hl|].
  destruct (proj1 (loadLabelMaps_bindings gmail_odd_labels world_two) _ Hl)
    as (maps & Hrun & _ & _ & _ & Hproto & Hbound & Hlast).
  exists maps. eexists. split; [exact Hrun|]. split; [|split; [exact Hproto|]].
  - refine (Hlast [named "INBOX" "INBOX"] (named "L_A" "Alpha")
              [named "__proto__" "Proto"; named "L_A" ""]
              "L_A" "Alpha" eq_refl eq_refl eq_refl _ _ _ _); try discriminate.
    intros later other Hin Hid Hname.
    apply elem_of_cons in Hin as [->|Hin]; [discriminate|].
    apply list_elem_of_singleton in Hin. subst later. injection Hname as <-. now left.
  - refine (Hbound (named "INBOX" "INBOX") "INBOX" "INBOX" _ eq_refl eq_refl _ _ _);
      try discriminate.
    left.
Defined.

Lemma countThreadsMatchingQuery_totals_witness :
  let p1 := {| page_threads := Some [mkThread "t1"]; nextPageToken := Some "p2" |} in
  let p2 := {| page_threads := Some [mkThread "t2"]; nextPageToken := None |} in
  paged gmail_inbox "label:inbox" (length (list_calls (events world_empty))) None [p1; p2] /\
  (length [p1; p2] <= 5)%nat /\
  exists w',
    countThreadsMatchingQuery 5 "label:inbox" gmail_inbox world_empty = (Return 2%nat, w') /\
    list_calls (events w') = [("label:inbox", 100, None); ("label:inbox", 100, Some "p2")].
Proof.
  intros p1 p2.
  assert (Hpaged : paged gmail_inbox "label:inbox"
                     (length (list_calls (events world_empty))) None [p1; p2]).
  { apply paged_more; [reflexivity | reflexivity |].
    apply paged_last; reflexivity. }
  assert (Hfuel : (length [p1; p2] <= 5)%nat) by (simpl; lia).
  split; [exact Hpaged|]. split; [exact Hfuel|].
  destruct (countThreadsMatchingQuery_totals 5 "label:inbox" gmail_inbox
              world_empty [p1; p2] Hpaged Hfuel) as (w' & Hrun & _ & Hcalls & _).
  exists w'. split; [exact Hrun | exact Hcalls].
Defined.

Lemma countLabels_table_witness :
  let cached := {| lr_id := "t1"; lr_labelIds := Some ["INBOX"; "L_A"];
                   lr_labelNames := None; lr_fromCache := true |} in
  let fetched := {| lr_id := "t2"; lr_labelIds := None;
                    lr_labelNames := Some [Some "INBOX"; Some "L_A"; None];
                    lr_fromCache := false |} in
  let stray := {| lr_id := "t9"; lr_labelIds := Some ["L_Z"];
                  lr_labelNames := None; lr_fromCache := true |} in
  let inbox : gset string := {["t1"; "t2"]} in
  let c := countLabels inbox [cached; stray; fetched] in
  Forall (fun key => inherited_key key = false)
    (counted_keys inbox [cached; stray; fetched]) /\
  labelCounts c = [("L_A", 2%nat); ("undefined", 1%nat)] /\
  count_of "L_A" (labelCounts c) = 2%nat /\
  count_of "L_Z" (labelCounts c) = 0%nat /\
  (usedCache c + usedApi c)%nat = 2%nat.
Proof.
  intros cached fetched stray inbox c.
  assert (Hkeys : Forall (fun key => inherited_key key = false)
                    (counted_keys inbox [cached; stray; fetched]))
    by (vm_compute; repeat constructor).
  destruct (countLabels_table inbox [cached; stray; fetched] Hkeys)
    as (_ & _ & _ & Hcount & Hused).
  split; [exact Hkeys|]. split; [vm_compute; reflexivity|].
  split; [|split].
  - subst c. rewrite Hcount. vm_compute. reflexivity.
  - subst c. rewrite Hcount. vm_compute. reflexivity.
  - subst c. rewrite Hused. vm_compute. reflexivity.
Defined.

Lemma countLabels_order_independent_witness :
  let cached := {| lr_id := "t1"; lr_labelIds := Some ["INBOX"; "L_A"];
                   lr_labelNames := None; lr_fromCache := true |} in
  let fetched := {| lr_id := "t2"; lr_labelIds := None;
                    lr_labelNames := Some [Some "INBOX"; Some "L_A"; None];
                    lr_fromCache := false |} in
  let inbox : gset string := {["t1"; "t2"]} in
  Permutation [cached; fetched] [fetched; cached] /\
  count_of "L_A" (labelCounts (countLabels inbox [cached; fetched])) = 2%nat /\
  count_of "L_A" (labelCounts (countLabels inbox [fetched; cached])) = 2%nat /\
  count_of "undefined" (labelCounts (countLabels inbox [fetched; cached])) = 1%nat.
Proof.
  intros cached fetched inbox.
  assert (Hperm : Permutation [cached; fetched] [fetched; cached]) by apply perm_swap.
  destruct (countLabels_order_independent inbox _ _ Hperm) as (Hcount & _).
  split; [exact Hperm|]. split; [vm_compute; reflexivity|].
  split; rewrite <- Hcount; vm_compute; reflexivity.
Defined.

Lemma printReport_rows_witness :
  let names : gmap string string :=
    {["L_A" := "Alpha"; "L_B" := "Beta"; "L_C" := "Gamma"]} in
  let table := [("L_B", 2%nat); ("L_C", 1%nat); ("L_A", 3%nat)] in
  (forall e, e ∈ table ->
     inherited_key (fst e) = false /\ (Z.of_nat (snd e) <= 9007199254740991)%Z) /\
  (forall e, e ∈ table -> truthy_string (names !! fst e) = true) /\
  exists w',
    printReport (P := platform) names table world_empty = (Return tt, w') /\
    logged (events w') =
      [padEnd 30 "Label Name" ++ "Inbox Threads"; repeat_string "=" 40;
       padEnd 30 "Alpha" ++ "3"; padEnd 30 "Beta" ++ "2"; padEnd 30 "Gamma" ++ "1"] /\
    warnings (events w') = [].
Proof.
  intros names table.
  assert (Hkeys : forall e, e ∈ table ->
            inherited_key (fst e) = false /\ (Z.of_nat (snd e) <= 9007199254740991)%Z).
  { intros e He. repeat (apply elem_of_cons in He as [->|He]);
      [split; [reflexivity | vm_compute; discriminate] ..|inversion He]. }
  assert (Hall : forall e, e ∈ table -> truthy_string (names !! fst e) = true).
  { intros e He. repeat (apply elem_of_cons in He as [->|He]);
      [vm_compute; reflexivity ..|inversion He]. }
  split; [exact Hkeys|]. split; [exact Hall|].
  destruct (printReport_rows (P := platform) names table world_empty Hkeys)
    as (sorted & w' & Hrun & _ & _ & _ & _ & Hquiet).
  exists w'. split; [exact Hrun|]. split; [|exact (Hquiet Hall)].
  assert (E : w' = snd (printReport (P := platform) names table world_empty))
    by now rewrite Hrun.
  rewrite E. vm_compute. reflexivity.
Defined.

Lemma listInboxLabelCounts_touches_cache_only_witness :
  let w' := snd (listInboxLabelCounts (P := platform) 5 gmail_two world_stale) in
  is_Some (files world_stale !! path_t "t9") /\
  is_Some (files w' !! path_t "t9") /\
  "token.json" <> inbox_ids_path (P := platform) /\
  (forall threadId, "token.json" <> thread_path (P := platform) threadId) /\
  files w' !! "token.json" = files world_stale !! "token.json".
Proof.
  intros w'.
  assert (Hs : is_Some (files world_stale !! path_t "t9")) by (vm_compute; eauto).
  assert (Hids : "token.json" <> inbox_ids_path (P := platform))
    by (vm_compute; discriminate).
  assert (Hthread : forall threadId, "token.json" <> thread_path (P := platform) threadId)
    by (intros threadId; cbv [thread_path CACHE_DIR platform String.append]; discriminate).
  destruct (listInboxLabelCounts_touches_cache_only (P := platform) 5 gmail_two world_stale)
    as (Hkeep & Hframe).
  split; [exact Hs|]. split; [exact (Hkeep _ Hs)|]. split; [exact Hids|].
  split; [exact Hthread|]. exact (Hframe _ Hids Hthread).
Defined.

Lemma aggregate_writes_back_witness :
  let names : gmap string string :=
    {["INBOX" := "INBOX"; "L_A" := "Alpha"; "L_B" := "Beta"]} in
  let threads := [mkThread "t1"; mkThread "t2"] in
  let r := aggregate (P := platform) gmail_two names threads world_two in
  aggregate (P := platform) gmail_two names threads world_two
    = (Return {| labelCounts := [("L_A", 1%nat); ("Beta", 1%nat)];
                 usedCache := 1; usedApi := 1 |}, snd r) /\
  cached_labels (P := platform) (files world_two) "t2" = None /\
  is_Some (cached_labels (P := platform) (files (snd r)) "t2") /\
  is_Some (cached_labels (P := platform) (files (snd r)) "t1").
Proof.
  intros names threads r.
  assert (Hrun : aggregate (P := platform) gmail_two names threads world_two
                 = (Return {| labelCounts := [("L_A", 1%nat); ("Beta", 1%nat)];
                              usedCache := 1; usedApi := 1 |}, snd r))
    by (vm_compute; reflexivity).
  destruct (aggregate_writes_back (P := platform) _ _ _ _ _ _ Hrun) as (Hall & _ & _).
  split; [exact Hrun|]. split; [vm_compute; reflexivity|]. split.
  - apply (Hall (mkThread "t2")). right. left.
  - apply (Hall (mkThread "t1")). left.
Defined.

Lemma listInboxLabelCounts_on_primed_cache_witness :
  let w := snd (listInboxLabelCounts (P := platform) 5 gmail_two world_two) in
  let empty_page := {| page_threads := None; nextPageToken := None |} in
  let threads := [mkThread "t1"; mkThread "t2"] in
  primed (P := platform) (files w) threads /\
  cached_labels (P := platform) (files w) "t2" = Some ["INBOX"; "L_B"] /\
  exists w',
    listInboxLabelCounts (P := platform) 5 gmail_two w =
      (Return {| labelCounts := [("L_A", 1%nat); ("L_B", 1%nat)];
                 usedCache := 2; usedApi := 0 |}, w') /\
    files w' = files w /\
    fetch_calls (events w') = ["t2"] /\
    length (list_calls (events w')) = 4%nat.
Proof.
  intros w empty_page threads.
  assert (Hp : primed (P := platform) (files w) (map mkThread ["t1"; "t2"])).
  { intros t Ht.
    apply elem_of_cons in Ht as [->|Ht]; [|apply elem_of_cons in Ht as [->|Ht]].
    - exists ["INBOX"; "L_A"]. split; [vm_compute; reflexivity | congruence].
    - exists ["INBOX"; "L_B"]. split; [vm_compute; reflexivity | congruence].
    - inversion Ht. }
  split; [exact Hp|]. split; [vm_compute; reflexivity|].
  assert (Hl : labels_list gmail_two (length (labels_calls (events w)))
               = LabelsOk (Some [named "INBOX" "INBOX"; named "L_A" "Alpha";
                                 named "L_B" "Beta"])) by reflexivity.
  assert (Hids : files w !! inbox_ids_path (P := platform)
                 = Some (Json (VArr ["t1"; "t2"]))) by (vm_compute; reflexivity).
  assert (Hq1 : paged gmail_two "in:inbox is:unread"
                  (length (list_calls (events w))) None [empty_page])
    by (apply paged_last; reflexivity).
  assert (Hq2 : paged gmail_two "in:inbox -label:=it -label:=p -label:=q"
                  (length (list_calls (events w)) + length [empty_page]) None [empty_page])
    by (apply paged_last; reflexivity).
  assert (Hfuel : (length [empty_page] <= 5)%nat) by (simpl; lia).
  assert (Hkeys : forall t labelIds,
            t ∈ map mkThread ["t1"; "t2"] ->
            cached_labels (P := platform) (files w) (thread_id t) = Some labelIds ->
            Forall (fun labelId => inherited_key labelId = false) labelIds).
  { intros t labelIds Ht.
    apply elem_of_cons in Ht as [->|Ht]; [|apply elem_of_cons in Ht as [->|Ht]].
    - vm_compute. intros [= <-]. repeat constructor.
    - vm_compute. intros [= <-]. repeat constructor.
    - inversion Ht. }
  destruct (listInboxLabelCounts_on_primed_cache (P := platform) 5 gmail_two w _
              ["t1"; "t2"] [empty_page] [empty_page] Hl Hids Hp Hkeys Hq1 Hq2 Hfuel Hfuel)
    as (w' & Hrun & Hf & Hg & Hlist & _).
  exists w'. split; [|split; [exact Hf|split]].
  - rewrite Hrun. f_equal.
  - rewrite Hg. vm_compute. reflexivity.
  - rewrite Hlist. vm_compute. reflexivity.
Defined.

(** * The fetch phase in the run *)

Section FetchPhase.
Context {P : Platform}.

(** ** A fetch that fails *)

Lemma safeGetThread_logged (gmail : Gmail) (id : string) (retries : nat) :
  forall w : World, logged (events (snd (safeGetThread gmail id retries w))) = logged (events w).
Proof.
  induction retries as [|r IH]; intros w;
    destruct (threads_get gmail (length (fetch_calls (events w))) id)
      as [[[|m ms]|]|err] eqn:E.
  - erewrite safeGetThread_no_message by eauto. cbn [snd events].
    rewrite logged_app. simpl. apply app_nil_r.
  - erewrite safeGetThread_answer by eauto. cbn [snd events].
    destruct (missing_or_empty _); rewrite !logged_app; simpl; now rewrite ?app_nil_r.
  - erewrite safeGetThread_no_message by eauto. cbn [snd events].
    rewrite logged_app. simpl. apply app_nil_r.
  - erewrite safeGetThread_rethrow by eauto. cbn [snd events].
    rewrite logged_app. simpl. apply app_nil_r.
  - erewrite safeGetThread_no_message by eauto. cbn [snd events].
    rewrite logged_app. simpl. apply app_nil_r.
  - erewrite safeGetThread_answer by eauto. cbn [snd events].
    destruct (missing_or_empty _); rewrite !logged_app; simpl; now rewrite ?app_nil_r.
  - erewrite safeGetThread_no_message by eauto. cbn [snd events].
    rewrite logged_app. simpl. apply app_nil_r.
  - destruct (decide (response_status err = Some 429)) as [H429|Hne].
    + destruct err; try discriminate. injection H429 as ->.
      rewrite safeGetThread_retry by exact E. rewrite IH. cbn [events].
      rewrite logged_app. simpl. apply app_nil_r.
    + erewrite safeGetThread_rethrow by eauto. cbn [snd events].
      rewrite logged_app. simpl. apply app_nil_r.
Qed.

(** A fetch ends: it returns or throws. *)
Lemma safeGetThread_ends (gmail : Gmail) (id : string) (retries : nat) :
  forall w : World, fst (safeGetThread gmail id retries w) <> OutOfFuel.
Proof.
  induction retries as [|r IH]; intros w;
    destruct (threads_get gmail (length (fetch_calls (events w))) id)
      as [[[|m ms]|]|err] eqn:E;
    try (erewrite safeGetThread_no_message by eauto; discriminate);
    try (erewrite safeGetThread_answer by eauto; discriminate).
  - erewrite safeGetThread_rethrow by eauto. discriminate.
  - destruct (decide (response_status err = Some 429)) as [H429|Hne].
    + destruct err; try discriminate. injection H429 as ->.
      rewrite safeGetThread_retry by exact E. apply IH.
    + erewrite safeGetThread_rethrow by eauto. discriminate.
Qed.

(** Against a remote that fails every request for the thread in the same
    way, the fetch throws that failure, whatever its budget. *)
Lemma safeGetThread_fails (gmail : Gmail) (id : string) (err : Exn) :
  (forall n, threads_get gmail n id = GetFail err) ->
  forall (retries : nat) (w : World), fst (safeGetThread gmail id retries w) = Throw err.
Proof.
  intros Hfail. induction retries as [|r IH]; intros w.
  - now erewrite safeGetThread_rethrow by eauto.
  - destruct (decide (response_status err = Some 429)) as [H429|Hne].
    + destruct err; try discriminate. injection H429 as ->.
      rewrite safeGetThread_retry by apply Hfail. apply IH.
    + now erewrite safeGetThread_rethrow by eauto.
Qed.

(** A task of phase 2 returns or throws, and logs no line. *)
Lemma fetchThread_ends (gmail : Gmail) (names : gmap string string) (total : nat)
    (acc : list LabelResult * nat) (threadId : string) (w : World) :
  fst (fetchThread gmail names total acc threadId w) <> OutOfFuel /\
  logged (events (snd (fetchThread gmail names total acc threadId w))) = logged (events w).
Proof.
  assert (Hl := safeGetThread_logged gmail threadId 3 w).
  assert (He := safeGetThread_ends gmail threadId 3 w).
  destruct (safeGetThread gmail threadId 3 w) as [[full|e|] w1] eqn:Hget.
  - destruct (safeGetThread_returns _ _ _ _ _ _ Hget) as (m & ms & -> & _).
    rewrite (fetchThread_after_fetch _ _ _ _ _ _ _ _ _ Hget). cbn [snd] in Hl.
    destruct (files w1 !! thread_path threadId), (file_name_error (thread_file threadId));
      cbn [fst snd events]; rewrite ?logged_app; simpl; rewrite ?app_nil_r;
      (split; [discriminate | exact Hl]).
  - unfold fetchThread. rewrite (bind_throw _ _ _ _ _ Hget).
    split; [discriminate | exact Hl].
  - now contradiction He.
Qed.

(** A task whose thread the remote always answers with a first message,
    and whose file the cache directory accepts, returns. *)
Lemma fetchThread_succeeds (gmail : Gmail) (names : gmap string string) (total : nat)
    (acc : list LabelResult * nat) (threadId : string) (w : World) :
  file_name_error (thread_file threadId) = None ->
  (forall n, exists m ms, threads_get gmail n threadId = GetOk (Some (m :: ms))) ->
  exists acc', fst (fetchThread gmail names total acc threadId w) = Return acc'.
Proof.
  intros Hname Hans.
  destruct (Hans (length (fetch_calls (events w)))) as (m & ms & Hget).
  rewrite (fetchThread_after_fetch _ _ _ _ _ _ _ _ _
             (safeGetThread_answer gmail threadId 3 w m ms Hget)).
  rewrite Hname. destruct (_ !! thread_path threadId); eauto.
Qed.

(** Phase 2 over a queue that holds a thread the remote fails every
    request for: the phase throws and logs no line, and what it throws
    is the failure of that thread when the tasks of the other threads
    cannot fail. *)
Lemma fetch_fold_aborts (gmail : Gmail) (names : gmap string string) (total : nat)
    (id : string) (err : Exn) :
  (forall n, threads_get gmail n id = GetFail err) ->
  forall (ids : list string) (acc : list LabelResult * nat) (w : World),
    id ∈ ids ->
    exists e w',
      foldM (fetchThread gmail names total) ids acc w = (Throw e, w') /\
      logged (events w') = logged (events w) /\
      ((forall other, other ∈ ids -> other <> id ->
          file_name_error (thread_file other) = None /\
          forall n, exists m ms, threads_get gmail n other = GetOk (Some (m :: ms))) ->
       e = err).
Proof.
  intros Hfail. induction ids as [|id0 rest IH]; intros acc w Hin; [inversion Hin|].
  cbn [foldM]. unfold bind.
  destruct (fetchThread_ends gmail names total acc id0 w) as (Hend & Hlog).
  destruct (decide (id0 = id)) as [->|Hne].
  - assert (Hthrow := safeGetThread_fails gmail id err Hfail 3 w).
    destruct (safeGetThread gmail id 3 w) as [r w1] eqn:Hget. cbn [fst] in Hthrow. subst r.
    assert (Hstep : fetchThread gmail names total acc id w = (Throw err, w1))
      by (unfold fetchThread; now rewrite (bind_throw _ _ _ _ _ Hget)).
    rewrite Hstep in *. exists err, w1. split; [reflexivity|]. split; [exact Hlog|]. reflexivity.
  - apply elem_of_cons in Hin as [Heq|Hin]; [congruence|].
    destruct (fetchThread gmail names total acc id0 w) as [[acc1|e|] w1] eqn:Hstep.
    + destruct (IH acc1 w1 Hin) as (e & w' & Hrun & Hlog' & He).
      exists e, w'. split; [exact Hrun|]. split; [cbn [snd] in Hlog; congruence|].
      intros Hothers. apply He. intros other Ho. apply Hothers. now right.
    + exists e, w1. split; [reflexivity|]. split; [exact Hlog|].
      intros Hothers. exfalso.
      destruct (Hothers id0 (list_elem_of_here _ _) Hne) as (Hname & Hans).
      destruct (fetchThread_succeeds gmail names total acc id0 w Hname Hans) as (acc' & Hret).
      rewrite Hstep in Hret. discriminate.
    + now contradiction Hend.
Qed.

(** C3, as the code has it.  With a budget of 3 retries the fetcher
    makes up to four attempts.  When the first attempt and the three
    retries all meet a 429, it retries exactly 3 times, waits 1000, 2000
    and 3000 ms before them, and then throws the 429, having changed no
    file; when the third retry is answered with the thread, after the
    same waits, the fetch returns that answer.  A failure that is not a
    429 is thrown at once, with no retry and no delay.  The failure is not swallowed: when the remote fails
    every request for a thread of the fetch queue, wherever the thread
    stands in the queue, phase 2 and the run end with an exception
    before any line of the report, and the exception is the failure of
    that thread when the tasks of the other queued threads cannot fail,
    their thread being answered and their file accepted. *)
Theorem safeGetThread_retry_budget (gmail : Gmail) (id : string) :
  (forall w,
     (forall k, (k < 4)%nat ->
        threads_get gmail (length (fetch_calls (events w)) + k) id
          = GetFail (HttpError 429)) ->
     exists w',
       safeGetThread gmail id 3 w = (Throw (HttpError 429), w') /\
       files w' = files w /\
       fetch_calls (events w') = (fetch_calls (events w) ++ [id; id; id; id])%list /\
       sleeps (events w') = (sleeps (events w) ++ [1000; 2000; 3000])%list) /\
  (forall w m ms,
     (forall k, (k < 3)%nat ->
        threads_get gmail (length (fetch_calls (events w)) + k) id
          = GetFail (HttpError 429)) ->
     threads_get gmail (length (fetch_calls (events w)) + 3) id = GetOk (Some (m :: ms)) ->
     exists w',
       safeGetThread gmail id 3 w = (Return (Some (m :: ms)), w') /\
       files w' = files w /\
       fetch_calls (events w') = (fetch_calls (events w) ++ [id; id; id; id])%list /\
       sleeps (events w') = (sleeps (events w) ++ [1000; 2000; 3000])%list) /\
  (forall w err retries,
     threads_get gmail (length (fetch_calls (events w))) id = GetFail err ->
     response_status err <> Some 429 ->
     safeGetThread gmail id retries w =
       (Throw err, mkWorld (files w) (events w ++ [EGet id]))) /\
  (forall err,
     (forall n, threads_get gmail n id = GetFail err) ->
     forall fuel w0 w1 w2 w3 maps threads st,
       loadLabelMaps gmail w0 = (Return maps, w1) ->
       getInboxThreads fuel gmail w1 = (Return threads, w2) ->
       scanCache (list_to_set (map thread_id threads)) threads w2 = (Return st, w3) ->
       id ∈ toFetch st ->
       exists e w',
         fetchMissing gmail (labelIdToName maps) st w3 = (Throw e, w') /\
         listInboxLabelCounts fuel gmail w0 = (Throw e, w') /\
         logged (events w') = logged (events w3) /\
         ((forall other, other ∈ toFetch st -> other <> id ->
             file_name_error (thread_file other) = None /\
             forall n, exists m ms, threads_get gmail n other = GetOk (Some (m :: ms))) ->
          e = err)).
Proof.
  split; [|split; [|split]].
  - intros w H429. eexists. split.
    + rewrite safeGetThread_retry
        by (rewrite <- (H429 0%nat) by lia; f_equal; lia).
      rewrite safeGetThread_retry
        by (simpl; rewrite fetch_calls_app, length_app; simpl;
            rewrite <- (H429 1%nat) by lia; reflexivity).
      rewrite safeGetThread_retry
        by (simpl; rewrite !fetch_calls_app, !length_app; simpl;
            rewrite <- (H429 2%nat) by lia; f_equal; lia).
      apply safeGetThread_rethrow; [|now left].
      simpl. rewrite !fetch_calls_app, !length_app. simpl.
      rewrite <- (H429 3%nat) by lia. f_equal. lia.
    + simpl. split; [reflexivity|].
      rewrite !fetch_calls_app, !sleeps_app. simpl.
      rewrite <- !app_assoc. simpl. split; reflexivity.
  - intros w m ms H429 Hok. eexists. split.
    + rewrite safeGetThread_retry
        by (rewrite <- (H429 0%nat) by lia; f_equal; lia).
      rewrite safeGetThread_retry
        by (simpl; rewrite fetch_calls_app, length_app; simpl;
            rewrite <- (H429 1%nat) by lia; reflexivity).
      rewrite safeGetThread_retry
        by (simpl; rewrite !fetch_calls_app, !length_app; simpl;
            rewrite <- (H429 2%nat) by lia; f_equal; lia).
      apply safeGetThread_answer.
      simpl. rewrite !fetch_calls_app, !length_app. simpl.
      rewrite <- Hok. f_equal. lia.
    + cbn [files events]. split; [reflexivity|].
      destruct (missing_or_empty _); rewrite !fetch_calls_app, !sleeps_app; simpl;
        rewrite <- !app_assoc; simpl; rewrite ?app_nil_r; split; reflexivity.
  - intros w err retries Hget Hne.
    exact (safeGetThread_rethrow gmail id retries w err Hget (or_intror Hne)).
  - intros err Hfail fuel w0 w1 w2 w3 maps threads st Hmaps Hthreads Hscan Hin.
    destruct (fetch_fold_aborts gmail (labelIdToName maps) (length (toFetch st)) id err
                Hfail (toFetch st) (labelResults st, O) w3 Hin)
      as (e & w' & Hfold & Hlog & He).
    assert (Hfetch : fetchMissing gmail (labelIdToName maps) st w3 = (Throw e, w'))
      by (unfold fetchMissing; now rewrite (bind_throw _ _ _ _ _ Hfold)).
    exists e, w'. split; [exact Hfetch|]. split; [|split; [exact Hlog | exact He]].
    eapply listInboxLabelCounts_throw; eassumption.
Qed.

(** ** Two runs in succession *)







End FetchPhase.

(** * The fetch phase at concrete runs *)

(** The run of [world_pair] against a remote that answers for [t1] and
    meets every request for [t2], the second thread of the queue, with a
    429; and one fetch each against a remote that always answers 429 and
    one that answers 500. *)
Lemma safeGetThread_retry_budget_witness :
  let w1 := snd (loadLabelMaps gmail_t2_limited world_pair) in
  let w2 := snd (getInboxThreads (P := platform) 5 gmail_t2_limited w1) in
  let w3 := snd (scanCache (P := platform) {["t1"; "t2"]}
                   [mkThread "t1"; mkThread "t2"] w2) in
  (forall k, (k < 4)%nat ->
     threads_get gmail_429 (length (fetch_calls (events world_empty)) + k) "t1"
       = GetFail (HttpError 429)) /\
  (exists w',
     safeGetThread gmail_429 "t1" 3 world_empty = (Throw (HttpError 429), w') /\
     fetch_calls (events w') = ["t1"; "t1"; "t1"; "t1"] /\
     sleeps (events w') = [1000; 2000; 3000]) /\
  (forall k, (k < 3)%nat ->
     threads_get gmail_429x3 (length (fetch_calls (events world_empty)) + k) "t1"
       = GetFail (HttpError 429)) /\
  (exists w',
     safeGetThread gmail_429x3 "t1" 3 world_empty
       = (Return (Some [{| msg_labelIds := Some ["INBOX"; "L_A"] |}]), w') /\
     sleeps (events w') = [1000; 2000; 3000]) /\
  threads_get gmail_500 (length (fetch_calls (events world_empty))) "t1"
    = GetFail (HttpError 500) /\
  response_status (HttpError 500) <> Some 429 /\
  safeGetThread gmail_500 "t1" 3 world_empty
    = (Throw (HttpError 500), mkWorld ∅ [EGet "t1"]) /\
  (forall n, threads_get gmail_t2_limited n "t2" = GetFail (HttpError 429)) /\
  exists w',
    listInboxLabelCounts (P := platform) 5 gmail_t2_limited world_pair
      = (Throw (HttpError 429), w') /\
    logged (events w') = logged (events w3).
Proof.
  intros w1 w2 w3.
  assert (H429 : forall k, (k < 4)%nat ->
            threads_get gmail_429 (length (fetch_calls (events world_empty)) + k) "t1"
              = GetFail (HttpError 429)) by (intros k _; reflexivity).
  assert (H500 : threads_get gmail_500 (length (fetch_calls (events world_empty))) "t1"
                   = GetFail (HttpError 500)) by reflexivity.
  assert (Hne : response_status (HttpError 500) <> Some 429) by (simpl; congruence).
  assert (Hfail : forall n, threads_get gmail_t2_limited n "t2" = GetFail (HttpError 429))
    by (intros n; reflexivity).
  assert (H3 : forall k, (k < 3)%nat ->
            threads_get gmail_429x3 (length (fetch_calls (events world_empty)) + k) "t1"
              = GetFail (HttpError 429)).
  { intros k Hk. simpl. destruct (Nat.ltb_spec k 3); [reflexivity | lia]. }
  split; [exact H429|].
  split; [|split; [exact H3|split;
    [|split; [exact H500|split; [exact Hne|split; [|split; [exact Hfail|]]]]]]].
  - destruct (proj1 (safeGetThread_retry_budget (P := platform) gmail_429 "t1")
                world_empty H429) as (w' & Hget & _ & Hcalls & Hsleeps).
    exists w'. split; [exact Hget|]. split; [exact Hcalls | exact Hsleeps].
  - destruct (proj1 (proj2 (safeGetThread_retry_budget (P := platform) gmail_429x3 "t1"))
                world_empty _ _ H3 eq_refl) as (w' & Hget & _ & _ & Hsleeps).
    exists w'. split; [exact Hget | exact Hsleeps].
  - exact (proj1 (proj2 (proj2 (safeGetThread_retry_budget (P := platform) gmail_500 "t1")))
             world_empty (HttpError 500) 3%nat H500 Hne).
  - destruct (proj2 (proj2 (proj2 (safeGetThread_retry_budget (P := platform)
                                     gmail_t2_limited "t2")))
                (HttpError 429) Hfail 5%nat world_pair w1 w2 w3
                {| labelIdToName := {["INBOX" := "INBOX"; "L_A" := "Alpha"]};
                   labelNameToId := {["INBOX" := "INBOX"; "Alpha" := "L_A"]} |}
                [mkThread "t1"; mkThread "t2"]
                (mkScan [] 0 2 ["t1"; "t2"]))
      as (e & w' & _ & Hrun & Hlog & He).
    + vm_compute. reflexivity.
    + vm_compute. reflexivity.
    + vm_compute. reflexivity.
    + cbn [toFetch]. right. left.
    + assert (Hothers : forall other, other ∈ toFetch (mkScan [] 0 2 ["t1"; "t2"]) ->
                other <> "t2" ->
                file_name_error (thread_file other) = None /\
                forall n, exists m ms,
                  threads_get gmail_t2_limited n other = GetOk (Some (m :: ms))).
      { cbn [toFetch]. intros other Hin Hother.
        apply elem_of_cons in Hin as [->|Hin];
          [|apply list_elem_of_singleton in Hin; congruence].
        split; [reflexivity|]. intros n. eexists; eexists. reflexivity. }
      exists w'. split; [|exact Hlog]. rewrite Hrun. f_equal. f_equal. exact (He Hothers).
Defined.

